(** * Metrics registry: counters, averages and the flush cycle

    A shallow embedding of [metrics.h]: the two metric classes
    ([CounterMetric], [AverageMetric]), the [IMetric] interface they
    implement, the text the flush cycle writes, the flush cycle itself
    ([MetricsRegistry::flush_locked]) and the scheduler thread with its
    mutex and condition variable ([worker_func], [flush_now], the
    destructor).

    Conventions.
    - A C++ [int] is a [Z] kept in the signed 32-bit range; arithmetic
      on [std::atomic<int>] wraps ([Int32.wrap]), arithmetic on a plain
      [int] that leaves the range is undefined behaviour and is modelled
      by [None].
    - A C++ [double] is a primitive binary64 float ([PrimFloat.float]),
      so sums and quotients round exactly as the hardware does.
    - A [std::string] is a [string]. *)

From Stdlib Require Import ZArith List String Ascii Bool Lia.
From Stdlib Require Import Floats Uint63 QArith Permutation DecimalString.
From Stdlib Require Import DecimalZ.
Import ListNotations.

Close Scope Q_scope.
Local Open Scope string_scope.
Local Open Scope Z_scope.

(* ================================================================== *)
(** ** Machine integers *)

Module Int32.

Definition modulus : Z := 2 ^ 32.
Definition min_int : Z := - 2 ^ 31.
Definition max_int : Z := 2 ^ 31 - 1.

Definition in_range (z : Z) : Prop := min_int <= z <= max_int.

Definition in_rangeb (z : Z) : bool := (min_int <=? z) && (z <=? max_int).

(** Two's-complement reduction: the representative of [z] modulo
    [2^32] in the signed range. *)
Definition wrap (z : Z) : Z := (z + 2 ^ 31) mod modulus - 2 ^ 31.

End Int32.

(* ================================================================== *)
(** ** Text output *)

Definition dquote : string := String (ascii_of_nat 34) EmptyString.
Definition newline : string := String (ascii_of_nat 10) EmptyString.

(** [std::to_string(int)] and [operator<<] on an integer: the decimal
    digits, with a leading minus sign for a negative number. *)
Definition to_string (z : Z) : string := NilEmpty.string_of_int (Z.to_int z).

Fixpoint fill (n : nat) (c : ascii) : string :=
  match n with
  | O => EmptyString
  | S k => String c (fill k c)
  end.

(** [os << std::setw(w) << std::setfill(c) << s] with the default right
    adjustment: [s] preceded by as many [c] as it is short of [w]; a
    longer [s] is written whole. *)
Definition setw_setfill (w : nat) (c : ascii) (s : string) : string :=
  fill (w - String.length s) c ++ s.

(** The fields of [struct tm] that the format string reads. *)
Record tm : Type := mk_tm {
  tm_year : Z;   (* years since 1900 *)
  tm_mon  : Z;   (* 0 .. 11 *)
  tm_mday : Z;   (* 1 .. 31 *)
  tm_hour : Z;   (* 0 .. 23 *)
  tm_min  : Z;   (* 0 .. 59 *)
  tm_sec  : Z    (* 0 .. 60 *)
}.

(** A two-digit field of [strftime] ([%m %d %H %M %S]). *)
Definition two_digits (z : Z) : string := setw_setfill 2 "0" (to_string z).

(** [std::put_time(&t, "%Y-%m-%d %H:%M:%S")]. *)
Definition put_time (t : tm) : string :=
  to_string (tm_year t + 1900) ++ "-" ++ two_digits (tm_mon t + 1) ++ "-" ++
  two_digits (tm_mday t) ++ " " ++
  two_digits (tm_hour t) ++ ":" ++ two_digits (tm_min t) ++ ":" ++
  two_digits (tm_sec t).

(** A reading of [std::chrono::system_clock::now()]: the broken-down
    local time that [std::localtime] gives for it, and the whole
    milliseconds since the epoch ([duration_cast<milliseconds>]). *)
Record time_point : Type := mk_time_point {
  localtime : tm;
  since_epoch_ms : Z
}.

(** The first two statements on the stream in [flush_locked]: the local
    time, a dot, and [ms = since_epoch % 1000] in a field of width 3
    filled with zeros ([%] truncates toward zero, as [Z.rem]). *)
Definition timestamp (now : time_point) : string :=
  let ms := Z.rem (since_epoch_ms now) 1000 in
  put_time (localtime now) ++ "." ++ setw_setfill 3 "0" (to_string ms).

(** Nearest integer to [n / d] for [0 <= n], [0 < d], ties to even. *)
Definition round_half_even (n d : Z) : Z :=
  let q := n / d in
  match (2 * (n mod d) ?= d) with
  | Lt => q
  | Gt => q + 1
  | Eq => if Z.even q then q else q + 1
  end.

Definition sign_string (s : bool) : string := if s then "-" else "".

(** [os << std::fixed << std::setprecision(2) << x]: the exact value of
    the double rounded to hundredths (to nearest, ties to even, as the
    C library's conversion does in the default rounding mode).  The
    float type identifies all NaNs, so the sign the C library may print
    before [nan] is not represented. *)
Definition fixed2 (x : float) : string :=
  match Prim2SF x with
  | S754_nan => "nan"
  | S754_infinity s => sign_string s ++ "inf"
  | S754_zero s => sign_string s ++ "0.00"
  | S754_finite s m e =>
      let h := if 0 <=? e then Z.pos m * 2 ^ e * 100
               else round_half_even (Z.pos m * 100) (2 ^ (- e)) in
      sign_string s ++ to_string (h / 100) ++ "." ++ two_digits (h mod 100)
  end.

(** Conversion of an [int] to [double] (exact: every 32-bit integer is
    a binary64 value). *)
Definition double_of_int (z : Z) : float :=
  if z <? 0 then PrimFloat.opp (PrimFloat.of_uint63 (Uint63.of_Z (- z)))
  else PrimFloat.of_uint63 (Uint63.of_Z z).

(* ================================================================== *)
(** ** CounterMetric *)

Module CounterMetric.

(** [name_] and the [std::atomic<int> value_]. *)
Record t : Type := mk {
  name_ : string;
  value_ : Z
}.

(** The constructor. *)
Definition make (name : string) : t := {| name_ := name; value_ := 0 |}.

(** [value_.fetch_add(v)]: one atomic read-modify-write; addition on
    an atomic integer wraps. *)
Definition increment (c : t) (v : Z) : t :=
  {| name_ := name_ c; value_ := Int32.wrap (value_ c + v) |}.

Definition get (c : t) : Z := value_ c.

Definition name (c : t) : string := name_ c.

Definition value_string (c : t) : string := to_string (get c).

Definition reset (c : t) : t := {| name_ := name_ c; value_ := 0 |}.

End CounterMetric.

(* ================================================================== *)
(** ** AverageMetric *)

Module AverageMetric.

(** [name_], [double sum_] and [int count_]; every member function
    takes [mutex_] for its whole body, so each is one atomic step. *)
Record t : Type := mk {
  name_ : string;
  sum_ : float;
  count_ : Z
}.

Definition make (name : string) : t :=
  {| name_ := name; sum_ := 0%float; count_ := 0 |}.

(** [sum_ += v; count_ += 1].  [count_] is a plain [int]: the
    increment past [INT_MAX] is undefined, which is [None]. *)
Definition add (a : t) (v : float) : option t :=
  if Int32.in_rangeb (count_ a + 1)
  then Some {| name_ := name_ a;
               sum_ := PrimFloat.add (sum_ a) v;
               count_ := count_ a + 1 |}
  else None.

(** [count_ ? (sum_ / count_) : 0.0]. *)
Definition get_average (a : t) : float :=
  if count_ a =? 0 then 0%float
  else PrimFloat.div (sum_ a) (double_of_int (count_ a)).

Definition name (a : t) : string := name_ a.

Definition value_string (a : t) : string := fixed2 (get_average a).

Definition reset (a : t) : t :=
  {| name_ := name_ a; sum_ := 0%float; count_ := 0 |}.

End AverageMetric.

(* ================================================================== *)
(** ** The IMetric interface *)

(** The three virtual member functions of [IMetric]. *)
Class IMetric (M : Type) : Type := {
  name : M -> string;
  value_string : M -> string;
  reset : M -> M
}.

#[export] Instance CounterMetric_IMetric : IMetric CounterMetric.t := {|
  name := CounterMetric.name;
  value_string := CounterMetric.value_string;
  reset := CounterMetric.reset
|}.

#[export] Instance AverageMetric_IMetric : IMetric AverageMetric.t := {|
  name := AverageMetric.name;
  value_string := AverageMetric.value_string;
  reset := AverageMetric.reset
|}.

(** What a [std::shared_ptr<IMetric>] of the registry points to: an
    object of one of the two classes that implement the interface;
    a virtual call dispatches on the constructor. *)
Inductive Metric : Type :=
| Counter (c : CounterMetric.t)
| Average (a : AverageMetric.t).

#[export] Instance Metric_IMetric : IMetric Metric := {|
  name m := match m with Counter c => name c | Average a => name a end;
  value_string m :=
    match m with Counter c => value_string c | Average a => value_string a end;
  reset m :=
    match m with
    | Counter c => Counter (reset c)
    | Average a => Average (reset a)
    end
|}.

(* ================================================================== *)
(** ** The sink and the record of calls *)

(** The file named [filename_], as [std::ofstream file(filename_,
    std::ios::app)] finds it: a file that cannot be opened for
    appending, or the bytes it holds (a file that does not exist yet is
    created empty by the open). *)
Inductive File : Type :=
| Unwritable
| Contents (data : string).

(** A [std::ofstream]: the file it is attached to and its [failbit]. *)
Record ofstream : Type := mk_ofstream {
  target : File;
  failbit : bool
}.

(** [std::ofstream file(filename_, std::ios::app)]: a failed open sets
    [failbit]; nothing is thrown (no exception mask is set). *)
Definition ofstream_open (f : File) : ofstream :=
  match f with
  | Unwritable => {| target := f; failbit := true |}
  | Contents _ => {| target := f; failbit := false |}
  end.

(** [file << text]: a stream in a failed state ignores the insertion;
    in append mode the text goes after what the file holds. *)
Definition ofstream_insert (o : ofstream) (text : string) : ofstream :=
  if failbit o then o
  else match target o with
       | Unwritable => o
       | Contents data =>
           {| target := Contents (data ++ text); failbit := false |}
       end.

(** The end of the block: the stream is destroyed, the file closed; the
    state flags go with the stream, nobody reads them. *)
Definition ofstream_close (o : ofstream) : File := target o.

Definition ofstream_append (f : File) (text : string) : File :=
  ofstream_close (ofstream_insert (ofstream_open f) text).

(** The threads of the program: the scheduler thread [worker_], the
    thread that owns and destroys the registry, and client threads. *)
Inductive thread : Type :=
| Worker
| Owner
| Client (k : nat).

(** The calls a flush cycle makes on the metrics and on the sink. *)
Inductive Event : Type :=
| EvRender (i : nat)            (* metrics_[i]->name(), ->value_string() *)
| EvWrite (record : string)    (* file << oss.str() *)
| EvReset (i : nat).            (* metrics_[i]->reset() *)

(* ================================================================== *)
(** ** MetricsRegistry: the state, the flush cycle and the scheduler *)

(** Where a thread is inside [flush_locked]. *)
Inductive flush_pc : Type :=
| FEnter                                (* line 137: about to read the clock *)
| FRender (i n : nat) (oss : string)    (* first loop, at index [i] of [n] *)
| FWrite (n : nat) (oss : string)       (* lines 149-154 *)
| FReset (i n : nat)                    (* second loop, at index [i] of [n] *)
| FDone.                                (* line 160 *)

(** Where the scheduler thread is inside [worker_func]. *)
Inductive worker_pc : Type :=
| WStart                  (* thread created, before line 125 *)
| WLoop                   (* mutex held, at the loop test (line 126) *)
| WWait (deadline : Z)    (* in [wait_for]: mutex released, blocked *)
| WWoken                  (* in [wait_for]: unblocked, re-locking *)
| WCheck                  (* mutex held, at line 129 *)
| WFlush (p : flush_pc)   (* mutex held, in [flush_locked] (line 131) *)
| WExit.                  (* loop left, mutex released, thread ended *)

(** Where the owning thread is inside the destructor. *)
Inductive owner_pc : Type :=
| OAlive        (* the registry is alive *)
| OLock         (* destructor entered, waiting for the mutex (line 98) *)
| OLocked       (* mutex held, at line 99 *)
| ONotify       (* mutex held, at line 100 *)
| OUnlock       (* mutex held, at the end of the block (line 101) *)
| OJoin         (* in [worker_.join()] (line 103) *)
| ODestroyed.   (* destructor returned *)

Section Registry.

Context {M : Type} `{IMetric M}.

(** The data the member functions of [MetricsRegistry] work on: the
    vector of metrics and the stop flag, the file behind [filename_],
    and (ghost) the calls made so far, each with the thread that made
    it. *)
Record State : Type := mk_State {
  metrics_ : list M;
  stop_flag_ : bool;
  file : File;
  calls : list (thread * Event)
}.

(** Commands: functions that change the state and return a value. *)
Definition Cmd (A : Type) : Type := State -> A * State.

Definition ret {A : Type} (a : A) : Cmd A := fun s => (a, s).

Definition bind {A B : Type} (c : Cmd A) (k : A -> Cmd B) : Cmd B :=
  fun s => let (a, s') := c s in k a s'.

Notation "x <- c ;; k" := (bind c (fun x => k))
  (at level 61, c at next level, right associativity).
Notation "c ;; k" := (bind c (fun _ => k))
  (at level 61, right associativity).

Definition record_call (me : thread) (e : Event) (s : State) : State :=
  {| metrics_ := metrics_ s; stop_flag_ := stop_flag_ s; file := file s;
     calls := (calls s ++ [(me, e)])%list |}.

Definition add_calls (es : list (thread * Event)) (s : State) : State :=
  {| metrics_ := metrics_ s; stop_flag_ := stop_flag_ s; file := file s;
     calls := (calls s ++ es)%list |}.

Definition set_metrics (l : list M) (s : State) : State :=
  {| metrics_ := l; stop_flag_ := stop_flag_ s; file := file s;
     calls := calls s |}.

Definition set_file (f : File) (s : State) : State :=
  {| metrics_ := metrics_ s; stop_flag_ := stop_flag_ s; file := f;
     calls := calls s |}.

Definition set_stop_flag (b : bool) (s : State) : State :=
  {| metrics_ := metrics_ s; stop_flag_ := b; file := file s;
     calls := calls s |}.

(** [v[i] = x] on a vector; an index past the end leaves it alone
    (the loops below never produce one). *)
Fixpoint update (l : list M) (i : nat) (x : M) : list M :=
  match l, i with
  | [], _ => []
  | _ :: t, O => x :: t
  | h :: t, S k => h :: update t k x
  end.

(** [metrics_.size()]. *)
Definition size : Cmd nat := fun s => (List.length (metrics_ s), s).

(** One turn of the first loop (line 147): a space, the name between
    double quotes, a space, the rendered value. *)
Definition render_metric (me : thread) (i : nat) (oss : string) : Cmd string :=
  fun s =>
    match nth_error (metrics_ s) i with
    | Some metric =>
        (oss ++ " " ++ dquote ++ name metric ++ dquote ++ " " ++
           value_string metric,
         record_call me (EvRender i) s)
    | None => (oss, s)
    end.

(** The block that opens the file, writes the stream's text and
    closes the file. *)
Definition write_file (me : thread) (text : string) : Cmd unit :=
  fun s =>
    (tt, record_call me (EvWrite text)
           (set_file (ofstream_append (file s) text) s)).

(** One turn of the second loop: [metric->reset()]. *)
Definition reset_metric (me : thread) (i : nat) : Cmd unit :=
  fun s =>
    match nth_error (metrics_ s) i with
    | Some metric =>
        (tt, record_call me (EvReset i)
               (set_metrics (update (metrics_ s) i (reset metric)) s))
    | None => (tt, s)
    end.

(** [for (i = from; i < from + count; ++i) acc = body(i, acc)]. *)
Fixpoint for_range {A : Type} (body : nat -> A -> Cmd A)
    (from count : nat) (acc : A) : Cmd A :=
  match count with
  | O => ret acc
  | S k => acc' <- body from acc ;; for_range body (S from) k acc'
  end.

(** [MetricsRegistry::flush_locked], run by thread [me] when the
    clock reads [now]. *)
Definition flush_locked (me : thread) (now : time_point) : Cmd unit :=
  n <- size ;;
  oss <- for_range (render_metric me) 0 n (timestamp now) ;;
  write_file me (oss ++ newline) ;;
  for_range (fun i _ => reset_metric me i) 0 n tt.

(** [MetricsRegistry::register_metric], after [make_shared] has built
    [metric]: [push_back]; the handle returned is the position of the
    new element. *)
Definition register_metric (metric : M) : Cmd nat :=
  fun s => (List.length (metrics_ s),
            set_metrics (metrics_ s ++ [metric])%list s).

(** [MetricsRegistry::flush_now]: [flush_locked] under the mutex
    (the mutex is in the scheduler's model below); [void], and no
    statement in it throws. *)
Definition flush_now (me : thread) (now : time_point) : Cmd unit :=
  flush_locked me now.

(** The snapshot: one (name, rendered value) pair per metric, in the
    order of the vector; the text of one pair, and one record. *)
Definition entries (l : list M) : list (string * string) :=
  map (fun metric => (name metric, value_string metric)) l.

Definition field (e : string * string) : string :=
  " " ++ dquote ++ fst e ++ dquote ++ " " ++ snd e.

Definition record (now : time_point) (es : list (string * string)) : string :=
  timestamp now ++ String.concat "" (map field es) ++ newline.

(** What the caller of [flush_now] has in hand when it returns: the
    returned value and the registry's own data (not the file). *)
Definition caller_view (r : unit * State) : unit * list M * bool :=
  (fst r, metrics_ (snd r), stop_flag_ (snd r)).

(** *** The flush cycle, one call at a time *)

(** [flush_locked] as the steps a thread takes through it; between
    two steps other threads may run. *)
Definition flush_step (me : thread) (now : time_point) (p : flush_pc)
    : Cmd flush_pc :=
  match p with
  | FEnter => n <- size ;; ret (FRender 0 n (timestamp now))
  | FRender i n oss =>
      if (i <? n)%nat
      then oss' <- render_metric me i oss ;; ret (FRender (S i) n oss')
      else ret (FWrite n (oss ++ newline))
  | FWrite n oss => write_file me oss ;; ret (FReset 0 n)
  | FReset i n =>
      if (i <? n)%nat
      then reset_metric me i ;; ret (FReset (S i) n)
      else ret FDone
  | FDone => ret FDone
  end.

Fixpoint flush_steps (me : thread) (now : time_point) (fuel : nat)
    (p : flush_pc) : Cmd flush_pc :=
  match fuel with
  | O => ret p
  | S k => p' <- flush_step me now p ;; flush_steps me now k p'
  end.

(** A number of steps that takes a thread at [p] to the end of
    [flush_locked] when the registry has [len] metrics. *)
Definition flush_fuel (p : flush_pc) (len : nat) : nat :=
  match p with
  | FEnter => 2 * len + 4
  | FRender i n _ => (n - i) + n + 3
  | FWrite n _ => n + 2
  | FReset i n => (n - i) + 1
  | FDone => 0
  end.

(** *** Threads, [mutex_] and [cond_] *)

(** Where a client thread is inside [flush_now] or
    [register_metric]. *)
Inductive client_pc : Type :=
| CIdle                      (* outside the registry's functions *)
| CFlushNow                  (* waiting for the mutex (line 118) *)
| CFlush (p : flush_pc)      (* mutex held, in [flush_locked] (line 119) *)
| CRegister (metric : M)     (* waiting for the mutex (line 111) *)
| CPush (metric : M).        (* mutex held, at line 112 *)

Record System : Type := mk_System {
  shared : State;                (* the registry's data and the file *)
  flush_period_ms_ : Z;
  mutex_ : option thread;        (* the thread that holds [mutex_] *)
  worker : worker_pc;
  owner : owner_pc;
  clients : nat -> client_pc;
  clock : Z                      (* milliseconds since the epoch *)
}.

Definition with_shared (x : State) (s : System) : System :=
  mk_System x (flush_period_ms_ s) (mutex_ s) (worker s) (owner s)
    (clients s) (clock s).

Definition with_mutex (x : option thread) (s : System) : System :=
  mk_System (shared s) (flush_period_ms_ s) x (worker s) (owner s)
    (clients s) (clock s).

Definition with_worker (x : worker_pc) (s : System) : System :=
  mk_System (shared s) (flush_period_ms_ s) (mutex_ s) x (owner s)
    (clients s) (clock s).

Definition with_owner (x : owner_pc) (s : System) : System :=
  mk_System (shared s) (flush_period_ms_ s) (mutex_ s) (worker s) x
    (clients s) (clock s).

Definition with_client (k : nat) (x : client_pc) (s : System) : System :=
  mk_System (shared s) (flush_period_ms_ s) (mutex_ s) (worker s) (owner s)
    (fun j => if Nat.eqb j k then x else clients s j) (clock s).

Definition with_clock (x : Z) (s : System) : System :=
  mk_System (shared s) (flush_period_ms_ s) (mutex_ s) (worker s) (owner s)
    (clients s) x.

(** [cond_.notify_one()]: the only thread that ever waits on [cond_]
    is the scheduler. *)
Definition notify_one (w : worker_pc) : worker_pc :=
  match w with
  | WWait _ => WWoken
  | _ => w
  end.

(** The constructor: data initialised, the scheduler thread created. *)
Definition construct (f : File) (flush_period_ms : Z) (t0 : Z) : System :=
  {| shared := {| metrics_ := []; stop_flag_ := false; file := f;
                  calls := [] |};
     flush_period_ms_ := flush_period_ms;
     mutex_ := None;
     worker := WStart;
     owner := OAlive;
     clients := fun _ => CIdle;
     clock := t0 |}.

(** Who moves in a step. *)
Inductive label : Type :=
| LTick                   (* time passes *)
| LThread (t : thread)    (* a thread executes its next statement *)
| LProducer.              (* a producer updates a metric by its handle *)

Inductive step : System -> label -> System -> Prop :=
(* time *)
| step_tick s :
    step s LTick (with_clock (clock s + 1) s)
(* a producer calls [increment] or [add] on metric [i]; metrics lock
   themselves, never [mutex_] *)
| step_produce s i metric (f : M -> M) :
    nth_error (metrics_ (shared s)) i = Some metric ->
    step s LProducer
      (with_shared (set_metrics (update (metrics_ (shared s)) i (f metric))
                      (shared s)) s)
(* worker_func, line 125: unique_lock *)
| step_w_lock s :
    worker s = WStart -> mutex_ s = None ->
    step s (LThread Worker) (with_worker WLoop (with_mutex (Some Worker) s))
(* line 126 true, line 128: wait_for releases the mutex and blocks *)
| step_w_wait s :
    worker s = WLoop -> stop_flag_ (shared s) = false ->
    step s (LThread Worker)
      (with_worker (WWait (clock s + flush_period_ms_ s))
         (with_mutex None s))
(* line 126 false: the loop ends, the lock's destructor unlocks *)
| step_w_loop_exit s :
    worker s = WLoop -> stop_flag_ (shared s) = true ->
    step s (LThread Worker) (with_worker WExit (with_mutex None s))
(* wait_for: the period has elapsed *)
| step_w_timeout s deadline :
    worker s = WWait deadline -> deadline <= clock s ->
    step s (LThread Worker) (with_worker WWoken s)
(* wait_for: spurious wake-up *)
| step_w_spurious s deadline :
    worker s = WWait deadline ->
    step s (LThread Worker) (with_worker WWoken s)
(* wait_for: re-lock before returning *)
| step_w_relock s :
    worker s = WWoken -> mutex_ s = None ->
    step s (LThread Worker) (with_worker WCheck (with_mutex (Some Worker) s))
(* lines 129-130: break, the lock's destructor unlocks *)
| step_w_break s :
    worker s = WCheck -> stop_flag_ (shared s) = true ->
    step s (LThread Worker) (with_worker WExit (with_mutex None s))
(* line 131: call flush_locked *)
| step_w_call_flush s :
    worker s = WCheck -> stop_flag_ (shared s) = false ->
    step s (LThread Worker) (with_worker (WFlush FEnter) s)
(* inside flush_locked *)
| step_w_flush s p now :
    worker s = WFlush p -> p <> FDone ->
    since_epoch_ms now = clock s ->
    step s (LThread Worker)
      (with_worker (WFlush (fst (flush_step Worker now p (shared s))))
         (with_shared (snd (flush_step Worker now p (shared s))) s))
(* flush_locked returns: back to the loop test *)
| step_w_flush_return s :
    worker s = WFlush FDone ->
    step s (LThread Worker) (with_worker WLoop s)
(* a client calls flush_now; the registry must be alive *)
| step_c_flush_now s k :
    owner s = OAlive -> clients s k = CIdle ->
    step s (LThread (Client k)) (with_client k CFlushNow s)
(* line 118: lock_guard *)
| step_c_flush_lock s k :
    clients s k = CFlushNow -> mutex_ s = None ->
    step s (LThread (Client k))
      (with_client k (CFlush FEnter) (with_mutex (Some (Client k)) s))
(* inside flush_locked *)
| step_c_flush s k p now :
    clients s k = CFlush p -> p <> FDone ->
    since_epoch_ms now = clock s ->
    step s (LThread (Client k))
      (with_client k (CFlush (fst (flush_step (Client k) now p (shared s))))
         (with_shared (snd (flush_step (Client k) now p (shared s))) s))
(* flush_now returns: the guard unlocks *)
| step_c_flush_return s k :
    clients s k = CFlush FDone ->
    step s (LThread (Client k)) (with_client k CIdle (with_mutex None s))
(* a client calls register_metric; line 110 builds the metric *)
| step_c_register s k metric :
    owner s = OAlive -> clients s k = CIdle ->
    step s (LThread (Client k)) (with_client k (CRegister metric) s)
(* line 111: lock_guard *)
| step_c_register_lock s k metric :
    clients s k = CRegister metric -> mutex_ s = None ->
    step s (LThread (Client k))
      (with_client k (CPush metric) (with_mutex (Some (Client k)) s))
(* lines 112-113: push_back, return, the guard unlocks *)
| step_c_push s k metric :
    clients s k = CPush metric ->
    step s (LThread (Client k))
      (with_client k CIdle
         (with_mutex None
            (with_shared (snd (register_metric metric (shared s))) s)))
(* the destructor starts; no other thread is inside a member function
   of a registry that is being destroyed *)
| step_o_destroy s :
    owner s = OAlive -> (forall k, clients s k = CIdle) ->
    step s (LThread Owner) (with_owner OLock s)
(* line 98: lock_guard *)
| step_o_lock s :
    owner s = OLock -> mutex_ s = None ->
    step s (LThread Owner) (with_owner OLocked (with_mutex (Some Owner) s))
(* line 99: stop_flag_ = true *)
| step_o_set_stop s :
    owner s = OLocked ->
    step s (LThread Owner)
      (with_owner ONotify (with_shared (set_stop_flag true (shared s)) s))
(* line 100: cond_.notify_one() *)
| step_o_notify s :
    owner s = ONotify ->
    step s (LThread Owner)
      (with_owner OUnlock (with_worker (notify_one (worker s)) s))
(* line 101: the guard unlocks *)
| step_o_unlock s :
    owner s = OUnlock ->
    step s (LThread Owner) (with_owner OJoin (with_mutex None s))
(* lines 102-103: join returns when the scheduler thread has ended *)
| step_o_join s :
    owner s = OJoin -> worker s = WExit ->
    step s (LThread Owner) (with_owner ODestroyed s).

(** Executions: the labels of the steps taken, oldest first. *)
Inductive steps : System -> list label -> System -> Prop :=
| steps_refl s : steps s [] s
| steps_snoc s ls s' l s'' :
    steps s ls s' -> step s' l s'' -> steps s (ls ++ [l])%list s''.

Definition reachable (s : System) : Prop :=
  exists f period t0 ls, steps (construct f period t0) ls s.

(** Thread [t] is executing [flush_locked]. *)
Definition in_flush (s : System) (t : thread) : Prop :=
  match t with
  | Worker => exists p, worker s = WFlush p
  | Client k => exists p, clients s k = CFlush p
  | Owner => False
  end.

(** The calls of one whole flush cycle by thread [t] over [n]
    metrics, and executions made of whole cycles one after another. *)
Definition renders (t : thread) (from n : nat) : list (thread * Event) :=
  map (fun i => (t, EvRender i)) (seq from n).

Definition resets (t : thread) (from n : nat) : list (thread * Event) :=
  map (fun i => (t, EvReset i)) (seq from n).

Definition cycle (t : thread) (n : nat) (text : string)
    : list (thread * Event) :=
  (renders t 0 n ++ [(t, EvWrite text)] ++ resets t 0 n)%list.

Inductive serial : list (thread * Event) -> Prop :=
| serial_nil : serial []
| serial_cycle l t n text :
    serial l -> serial (l ++ cycle t n text)%list.

(** *** Invariants of the scheduler *)

(** The statements at which a thread holds [mutex_]. *)
Definition worker_holds (w : worker_pc) : bool :=
  match w with
  | WLoop | WCheck | WFlush _ => true
  | _ => false
  end.

Definition owner_holds (o : owner_pc) : bool :=
  match o with
  | OLocked | ONotify | OUnlock => true
  | _ => false
  end.

Definition client_holds (c : client_pc) : bool :=
  match c with
  | CFlush _ | CPush _ => true
  | _ => false
  end.

Definition holds (s : System) (t : thread) : bool :=
  match t with
  | Worker => worker_holds (worker s)
  | Owner => owner_holds (owner s)
  | Client k => client_holds (clients s k)
  end.

(** The mutex records its holder: a thread is at a statement under
    the lock exactly when the mutex says it holds it. *)
Definition mutex_inv (s : System) : Prop :=
  forall t, holds s t = true <-> mutex_ s = Some t.

(** Once the destructor has started, no client is inside a member
    function. *)
Definition lifetime_inv (s : System) : Prop :=
  owner s <> OAlive -> forall k, clients s k = CIdle.

(** The stop flag is set from line 99 of the destructor on. *)
Definition stop_set (o : owner_pc) : bool :=
  match o with
  | OAlive | OLock | OLocked => false
  | _ => true
  end.

Definition stop_inv (s : System) : Prop :=
  stop_flag_ (shared s) = stop_set (owner s).

(** The stop is acknowledged: the flag is set and the notification
    sent (line 100 done). *)
Definition notified (o : owner_pc) : bool :=
  match o with
  | OUnlock | OJoin | ODestroyed => true
  | _ => false
  end.

(** The scheduler is blocked in the timed wait. *)
Definition waiting (w : worker_pc) : bool :=
  match w with
  | WWait _ => true
  | _ => false
  end.

Definition flushing (w : worker_pc) : bool :=
  match w with
  | WFlush _ => true
  | _ => false
  end.

Definition wake_inv (s : System) : Prop :=
  notified (owner s) = true -> waiting (worker s) = false.

Definition flush_inv (s : System) : Prop :=
  stop_flag_ (shared s) = true -> flushing (worker s) = false.

Definition join_inv (s : System) : Prop :=
  owner s = ODestroyed -> worker s = WExit.

Definition Inv (s : System) : Prop :=
  mutex_inv s /\ lifetime_inv s /\ stop_inv s /\ wake_inv s /\
  flush_inv s /\ join_inv s.


(** Where thread [t] is in [flush_locked], if it is there. *)
Definition flush_pc_of (s : System) (t : thread) : option flush_pc :=
  match t with
  | Worker => match worker s with WFlush p => Some p | _ => None end
  | Client k => match clients s k with CFlush p => Some p | _ => None end
  | Owner => None
  end.

(** The calls that thread [t] has made in its cycle when it is at [p]
    and the registry has [n] metrics. *)
Definition progress (t : thread) (p : flush_pc) (n : nat)
    (evs : list (thread * Event)) : Prop :=
  match p with
  | FEnter => evs = []
  | FRender i m _ => m = n /\ (i <= n)%nat /\ evs = renders t 0 i
  | FWrite m _ => m = n /\ evs = renders t 0 n
  | FReset i m =>
      m = n /\ (i <= n)%nat /\
      exists text,
        evs = (renders t 0 n ++ [(t, EvWrite text)] ++ resets t 0 i)%list
  | FDone => exists text, evs = cycle t n text
  end.

(** The calls made so far are whole cycles one after another, then
    the calls of the cycle that the holder of the mutex is in. *)
Definition log_inv (s : System) : Prop :=
  exists done partial,
    calls (shared s) = (done ++ partial)%list /\
    serial done /\
    match mutex_ s with
    | Some t =>
        match flush_pc_of s t with
        | Some p =>
            progress t p (List.length (metrics_ (shared s))) partial
        | None => partial = []
        end
    | None => partial = []
    end.

End Registry.

Arguments State M : clear implicits.
Arguments Cmd M A : clear implicits.
Arguments System M : clear implicits.
Arguments client_pc M : clear implicits.

(* ================================================================== *)
(** ** Runs of producer calls, and what the specification compares them to *)

(** A sequence of [increment] calls on one counter. *)
Definition increments (c : CounterMetric.t) (deltas : list Z) : CounterMetric.t :=
  fold_left CounterMetric.increment deltas c.

(** A sequence of [add] calls on one average; [None] once a call is
    undefined. *)
Fixpoint adds (a : AverageMetric.t) (vs : list float) : option AverageMetric.t :=
  match vs with
  | [] => Some a
  | v :: rest =>
      match AverageMetric.add a v with
      | Some a' => adds a' rest
      | None => None
      end
  end.

(** Concurrent callers: each thread has its own sequence of calls, and
    because every call is one atomic step, an execution is an
    interleaving of the sequences. *)
Inductive interleaving {A : Type} : list (list A) -> list A -> Prop :=
| interleaving_done threads :
    Forall (fun program => program = []) threads ->
    interleaving threads []
| interleaving_next before x program after schedule :
    interleaving (before ++ program :: after) schedule ->
    interleaving (before ++ (x :: program) :: after) (x :: schedule).

Definition Zsum (l : list Z) : Z := fold_right Z.add 0 l.

(** The number a finite double stands for (0 for an infinity or a NaN,
    which stand for no number). *)
Definition exact_value (x : float) : Q :=
  match Prim2SF x with
  | S754_finite s m e =>
      ((if s then -1 else 1) * inject_Z (Z.pos m) * Qpower 2 e)%Q
  | _ => 0%Q
  end.

(** The double is a number: a zero, a subnormal or a normal value. *)
Definition finite_double (x : float) : bool :=
  match Prim2SF x with
  | S754_zero _ | S754_finite _ _ _ => true
  | _ => false
  end.

Definition Qsum (l : list Q) : Q := fold_right Qplus 0%Q l.

(** The arithmetic mean of the numbers that the samples stand for. *)
Definition arithmetic_mean (vs : list float) : Q :=
  (Qsum (map exact_value vs) / inject_Z (Z.of_nat (List.length vs)))%Q.

(** The specification's reading of [mean()]: after the samples [vs]
    have been added to a fresh average, it is their arithmetic mean. *)
Definition mean_is_arithmetic_mean (vs : list float) : Prop :=
  exists a,
    adds (AverageMetric.make "A") vs = Some a /\
    finite_double (AverageMetric.get_average a) = true /\
    (exact_value (AverageMetric.get_average a) == arithmetic_mean vs)%Q.

(** Samples whose sum is rounded: 2^53, 1, 1, -2^53. *)
Definition cancelling_samples : list float :=
  [9007199254740992; 1; 1; -9007199254740992]%float.

(** The running sum that [add] keeps: left to right, each addition
    rounded to a double. *)
Definition float_sum (vs : list float) : float :=
  fold_left PrimFloat.add vs 0%float.

(** Text patterns: [d] in the pattern stands for one decimal digit, any
    other character for itself. *)
Definition is_digit (c : ascii) : bool :=
  let n := nat_of_ascii c in (48 <=? n)%nat && (n <=? 57)%nat.

Fixpoint matches (pattern s : string) : bool :=
  match pattern, s with
  | EmptyString, EmptyString => true
  | String p pattern', String c s' =>
      (if Ascii.eqb p "d" then is_digit c else Ascii.eqb p c) &&
      matches pattern' s'
  | _, _ => false
  end.

(** A text of decimal digits only. *)
Fixpoint all_digits (s : string) : bool :=
  match s with
  | EmptyString => true
  | String c s' => is_digit c && all_digits s'
  end.

(** A text that ends in a decimal point and exactly two digits, the
    point being its only one. *)
Definition two_fraction_digits (s : string) : Prop :=
  exists whole d1 d2,
    s = whole ++ "." ++ String d1 (String d2 "") /\
    is_digit d1 = true /\ is_digit d2 = true /\
    (forall c, In c (list_ascii_of_string whole) -> c <> "."%char).

(** [c] occurs in [s]. *)
Fixpoint occurs (c : ascii) (s : string) : bool :=
  match s with
  | EmptyString => false
  | String c' s' => Ascii.eqb c c' || occurs c s'
  end.

Definition newline_char : ascii := ascii_of_nat 10.






(** A run of the example program: a counter "C" incremented by 5 and
    an average "A" given the samples 2.0 and 4.0, about to be flushed
    to an empty file or to a file that cannot be opened. *)
Definition demo_time : time_point :=
  {| localtime := {| tm_year := 126; tm_mon := 9; tm_mday := 30;
                     tm_hour := 4; tm_min := 5; tm_sec := 6 |};
     since_epoch_ms := 1793333106007 |}.

Definition demo_average : AverageMetric.t :=
  match adds (AverageMetric.make "A") [2; 4]%float with
  | Some a => a
  | None => AverageMetric.make "A"
  end.

Definition demo_state (f : File) : State Metric :=
  {| metrics_ := [Counter (increments (CounterMetric.make "C") [5]);
                  Average demo_average];
     stop_flag_ := false;
     file := f;
     calls := [] |}.

(** A run up to the acknowledged stop: the scheduler has taken the
    lock, found the flag clear and gone to wait; the destructor has
    taken the lock, set the flag, notified and unlocked, and waits in
    [join]. *)
Definition shutdown_state : System Metric :=
  let s0 := construct (Contents EmptyString) 1000 0 in
  let s1 := with_worker WLoop (with_mutex (Some Worker) s0) in
  let s2 := with_worker (WWait (clock s1 + flush_period_ms_ s1))
              (with_mutex None s1) in
  let s3 := with_owner OLock s2 in
  let s4 := with_owner OLocked (with_mutex (Some Owner) s3) in
  let s5 := with_owner ONotify
              (with_shared (set_stop_flag true (shared s4)) s4) in
  let s6 := with_owner OUnlock (with_worker (notify_one (worker s5)) s5) in
  with_owner OJoin (with_mutex None s6).

(** A run up to the middle of a [flush_now]: client 0 has registered a
    counter, called [flush_now], taken the lock, read the clock and
    rendered the counter; the scheduler has not started yet. *)
Definition epoch : time_point :=
  {| localtime := {| tm_year := 70; tm_mon := 0; tm_mday := 1;
                     tm_hour := 0; tm_min := 0; tm_sec := 0 |};
     since_epoch_ms := 0 |}.

Definition mid_flush_state : System Metric :=
  let metric := Counter (CounterMetric.make "C") in
  let s0 := construct (Contents EmptyString) 1000 0 in
  let s1 := with_client 0 (CRegister metric) s0 in
  let s2 := with_client 0 (CPush metric) (with_mutex (Some (Client 0)) s1) in
  let s3 := with_client 0 CIdle
              (with_mutex None
                 (with_shared (snd (register_metric metric (shared s2))) s2)) in
  let s4 := with_client 0 CFlushNow s3 in
  let s5 := with_client 0 (CFlush FEnter) (with_mutex (Some (Client 0)) s4) in
  let s6 := with_client 0
              (CFlush (fst (flush_step (Client 0) epoch FEnter (shared s5))))
              (with_shared (snd (flush_step (Client 0) epoch FEnter (shared s5)))
                 s5) in
  with_client 0
    (CFlush (fst (flush_step (Client 0) epoch (FRender 0 1 (timestamp epoch))
                    (shared s6))))
    (with_shared (snd (flush_step (Client 0) epoch
                         (FRender 0 1 (timestamp epoch)) (shared s6))) s6).

(** The specification's reading of a failed write: the caller of
    [flush_now] can tell it from a write that succeeded. *)
Definition failure_is_surfaced {M : Type} `{IMetric M}
    (me : thread) (now : time_point) (s : State M) : Prop :=
  forall data,
    caller_view (flush_now me now (set_file Unwritable s)) <>
    caller_view (flush_now me now (set_file (Contents data) s)).

(* ================================================================== *)
(** ** Sequences of calls on the registry and on one metric *)

Section RegistryCalls.

Context {M : Type} `{IMetric M}.

(** [register_metric] called once for each metric of [ms], in order;
    the handles returned, in the same order. *)
Fixpoint registers (ms : list M) : Cmd M (list nat) :=
  match ms with
  | [] => ret []
  | metric :: rest =>
      bind (register_metric metric)
        (fun h => bind (registers rest) (fun hs => ret (h :: hs)))
  end.

(** What a producer's call through its handle does to the registry's
    data: metric [i] replaced by [f] of it. *)
Definition produce (i : nat) (f : M -> M) (s : State M) : State M :=
  match nth_error (metrics_ s) i with
  | Some metric => set_metrics (update (metrics_ s) i (f metric)) s
  | None => s
  end.

(** The loop bounds a thread inside [flush_locked] carries agree with
    a vector of [len] elements. *)
Definition indices_in_range (p : flush_pc) (len : nat) : Prop :=
  match p with
  | FRender i n _ => n = len /\ (i <= n)%nat
  | FWrite n _ => n = len
  | FReset i n => n = len /\ (i <= n)%nat
  | FEnter | FDone => True
  end.

End RegistryCalls.

(** A call on a counter through its handle. *)
Inductive counter_op : Type :=
| CallIncrement (v : Z)
| CallReset.

Definition counter_call (c : CounterMetric.t) (op : counter_op) : CounterMetric.t :=
  match op with
  | CallIncrement v => CounterMetric.increment c v
  | CallReset => CounterMetric.reset c
  end.

Definition counter_calls (c : CounterMetric.t) (ops : list counter_op)
    : CounterMetric.t :=
  fold_left counter_call ops c.

(** The same calls on a counter without a width: what the calls would
    leave if integers were unbounded. *)
Definition tally (ops : list counter_op) (start : Z) : Z :=
  fold_left (fun acc op => match op with
                           | CallIncrement v => acc + v
                           | CallReset => 0
                           end) ops start.

Definition is_increment (op : counter_op) : bool :=
  match op with
  | CallIncrement _ => true
  | CallReset => false
  end.

(** A call on an average through its handle. *)
Inductive average_op : Type :=
| CallAdd (v : float)
| CallResetAverage.

Fixpoint average_calls (a : AverageMetric.t) (ops : list average_op)
    : option AverageMetric.t :=
  match ops with
  | [] => Some a
  | CallAdd v :: rest =>
      match AverageMetric.add a v with
      | Some a' => average_calls a' rest
      | None => None
      end
  | CallResetAverage :: rest => average_calls (AverageMetric.reset a) rest
  end.

(** The samples added after the last reset of [ops], [acc] being those
    added since the last reset before [ops]. *)
Fixpoint samples_since_reset (ops : list average_op) (acc : list float)
    : list float :=
  match ops with
  | [] => acc
  | CallAdd v :: rest => samples_since_reset rest (acc ++ [v])%list
  | CallResetAverage :: rest => samples_since_reset rest []
  end.

(** The rendering of a metric that has just been reset. *)
Definition reset_value_string (metric : Metric) : string :=
  match metric with
  | Counter _ => "0"
  | Average _ => "0.00"
  end.

(** The number of times [c] occurs in [s]. *)
Fixpoint count_char (c : ascii) (s : string) : nat :=
  match s with
  | EmptyString => O
  | String c' s' => ((if Ascii.eqb c c' then 1 else 0) + count_char c s')%nat
  end.

Definition dquote_char : ascii := ascii_of_nat 34.

(** The characters a rendered value is made of: digits, the minus
    sign, the point, and the letters of [inf] and [nan]. *)
Definition value_char (c : ascii) : bool :=
  is_digit c || Ascii.eqb c "-" || Ascii.eqb c "." || Ascii.eqb c "i" ||
  Ascii.eqb c "n" || Ascii.eqb c "f" || Ascii.eqb c "a".

Fixpoint all_chars (P : ascii -> bool) (s : string) : bool :=
  match s with
  | EmptyString => true
  | String c s' => P c && all_chars P s'
  end.

(** States of short runs of a new registry over a file that holds
    [old]: client 0 has called [flush_now] and waits for the mutex;
    client 0 is about to push a counter; client 0 is at the write of a
    cycle over no metrics; the destructor has been entered while the
    scheduler, woken early, is entering a cycle. *)
Definition calling_flush_now_state : System Metric :=
  with_client 0 CFlushNow (construct (Contents "old") 1000 0).

Definition pushing_state : System Metric :=
  with_client 0 (CPush (Counter (CounterMetric.make "C")))
    (with_mutex (Some (Client 0)) (construct (Contents "old") 1000 0)).

Definition writing_state : System Metric :=
  with_client 0 (CFlush (FWrite 0 (timestamp epoch ++ newline)))
    (with_mutex (Some (Client 0)) (construct (Contents "old") 1000 0)).

Definition destroying_state : System Metric :=
  let s0 := construct (Contents "old") 1000 0 in
  let s1 := with_worker WLoop (with_mutex (Some Worker) s0) in
  let s2 := with_worker (WWait (clock s1 + flush_period_ms_ s1))
              (with_mutex None s1) in
  let s3 := with_worker WWoken s2 in
  let s4 := with_worker WCheck (with_mutex (Some Worker) s3) in
  let s5 := with_worker (WFlush FEnter) s4 in
  with_owner OLock s5.





(* ================================================================== *)
(** * Properties *)

(** ** 32-bit arithmetic *)

Lemma wrap_in_range (z : Z) : Int32.in_range (Int32.wrap z).
Proof.
  unfold Int32.in_range, Int32.wrap, Int32.min_int, Int32.max_int, Int32.modulus.
  pose proof (Z.mod_pos_bound (z + 2 ^ 31) (2 ^ 32) ltac:(lia)). lia.
Qed.

Lemma wrap_small (z : Z) : Int32.in_range z -> Int32.wrap z = z.
Proof.
  unfold Int32.in_range, Int32.wrap, Int32.min_int, Int32.max_int, Int32.modulus.
  intros Hz. rewrite Z.mod_small; lia.
Qed.

Lemma wrap_congruent (z : Z) : Int32.wrap z mod Int32.modulus = z mod Int32.modulus.
Proof.
  unfold Int32.wrap, Int32.modulus.
  replace ((z + 2 ^ 31) mod 2 ^ 32 - 2 ^ 31)
    with ((z + 2 ^ 31) mod 2 ^ 32 + (- 2 ^ 31)) by lia.
  rewrite Zplus_mod_idemp_l. f_equal. lia.
Qed.

Lemma wrap_add_l (a b : Z) : Int32.wrap (Int32.wrap a + b) = Int32.wrap (a + b).
Proof.
  unfold Int32.wrap at 1 3. f_equal. unfold Int32.modulus.
  replace (Int32.wrap a + b + 2 ^ 31) with (Int32.wrap a + (b + 2 ^ 31)) by lia.
  replace (a + b + 2 ^ 31) with (a + (b + 2 ^ 31)) by lia.
  rewrite <- Zplus_mod_idemp_l. fold Int32.modulus. rewrite wrap_congruent.
  unfold Int32.modulus. now rewrite Zplus_mod_idemp_l.
Qed.

Lemma in_rangeb_spec (z : Z) : Int32.in_rangeb z = true <-> Int32.in_range z.
Proof.
  unfold Int32.in_rangeb, Int32.in_range.
  rewrite andb_true_iff, !Z.leb_le. tauto.
Qed.

(** ** CounterMetric *)

(** The value after a run of increments, from any counter: the old
    value plus the sum of the deltas, reduced to 32 bits. *)
Lemma increments_get (deltas : list Z) (c : CounterMetric.t) :
  Int32.in_range (CounterMetric.get c) ->
  CounterMetric.get (increments c deltas) =
  Int32.wrap (CounterMetric.get c + Zsum deltas).
Proof.
  unfold increments. revert c.
  induction deltas as [|d deltas IH]; intros c Hc; simpl.
  - rewrite Z.add_0_r. symmetry. now apply wrap_small.
  - rewrite IH by apply wrap_in_range.
    unfold CounterMetric.increment, CounterMetric.get. simpl.
    rewrite wrap_add_l. f_equal. lia.
Qed.

Lemma Zsum_app (l1 l2 : list Z) : Zsum (l1 ++ l2) = Zsum l1 + Zsum l2.
Proof. induction l1 as [|x l1 IH]; simpl; [reflexivity | rewrite IH; lia]. Qed.

Lemma Zsum_concat_nil (threads : list (list Z)) :
  Forall (fun program => program = []) threads -> Zsum (List.concat threads) = 0.
Proof.
  induction 1 as [|p threads Hp _ IH]; simpl; [reflexivity|].
  subst p. exact IH.
Qed.

(** An interleaving performs every call of every thread once: the sum
    of the scheduled deltas is the sum over all the threads. *)
Lemma interleaving_Zsum (threads : list (list Z)) (schedule : list Z) :
  interleaving threads schedule -> Zsum schedule = Zsum (List.concat threads).
Proof.
  induction 1 as [threads Hnil | before x program after schedule _ IH].
  - now rewrite Zsum_concat_nil.
  - simpl. rewrite IH. rewrite !concat_app. simpl.
    rewrite !Zsum_app. simpl. rewrite Zsum_app. lia.
Qed.

Lemma increments_fresh (name : string) (deltas : list Z) :
  CounterMetric.get (increments (CounterMetric.make name) deltas) =
  Int32.wrap (Zsum deltas).
Proof.
  rewrite increments_get.
  - reflexivity.
  - unfold CounterMetric.make, CounterMetric.get, Int32.in_range; simpl.
    unfold Int32.min_int, Int32.max_int. lia.
Qed.

(** C5 as stated fails: two increments whose sum leaves the 32-bit
    range give a negative value, not the sum. *)
Lemma counter_sum_overflows :
  CounterMetric.get (increments (CounterMetric.make "c") [2147483647; 1])
  <> Zsum [2147483647; 1].
Proof. vm_compute. discriminate. Qed.

(** C5 (amended): for every interleaving of the increment calls of any
    number of threads on a fresh counter, [get()] is the sum of all the
    deltas reduced modulo 2^32 to the signed 32-bit range; so no
    increment is lost, and [get()] is the sum itself whenever the sum
    is in that range, whatever the sign of the deltas. *)
Theorem counter_get_is_wrapped_sum
    (name : string) (threads : list (list Z)) (schedule : list Z) :
  interleaving threads schedule ->
  let c := increments (CounterMetric.make name) schedule in
  CounterMetric.get c = Int32.wrap (Zsum (List.concat threads)) /\
  (Int32.in_range (Zsum (List.concat threads)) ->
   CounterMetric.get c = Zsum (List.concat threads)).
Proof.
  intros Hi c. subst c. rewrite increments_fresh, (interleaving_Zsum _ _ Hi).
  split; [reflexivity | apply wrap_small].
Qed.

Lemma counter_get_is_wrapped_sum_witness :
  interleaving [[5; -2]; [7]] [5; 7; -2] /\
  CounterMetric.get (increments (CounterMetric.make "c") [5; 7; -2]) = 10.
Proof.
  assert (Hi : interleaving [[5; -2]; [7]] [5; 7; -2]).
  { apply (interleaving_next [] 5 [-2] [[7]]).
    apply (interleaving_next [[-2]] 7 [] []).
    apply (interleaving_next [] (-2) [] [[]]).
    apply interleaving_done. repeat constructor. }
  split; [exact Hi|].
  apply (proj2 (counter_get_is_wrapped_sum "c" _ _ Hi)).
  unfold Int32.in_range, Int32.min_int, Int32.max_int. simpl. lia.
Defined.

Lemma Zsum_repeat_1 (n : nat) : Zsum (repeat 1 n) = Z.of_nat n.
Proof.
  induction n as [|n IH]; [reflexivity|].
  change (1 + Zsum (repeat 1 n) = Z.of_nat (S n)). rewrite IH. lia.
Qed.

(** [n] calls of [increment(1)], from any number of threads, leave the
    counter at [n] when [n] is at most [INT_MAX]. *)
Corollary counter_counts (name : string) (threads : list (list Z))
    (schedule : list Z) (n : nat) :
  interleaving threads schedule ->
  List.concat threads = repeat 1 n ->
  Z.of_nat n <= Int32.max_int ->
  CounterMetric.get (increments (CounterMetric.make name) schedule) = Z.of_nat n.
Proof.
  intros Hi Hc Hn.
  rewrite increments_fresh, (interleaving_Zsum _ _ Hi), Hc, Zsum_repeat_1.
  apply wrap_small. unfold Int32.in_range, Int32.min_int. lia.
Qed.

(** C10: the counter is a 32-bit integer.  Every increment leaves a
    value in the signed 32-bit range that is congruent modulo 2^32 to
    the old value plus the delta, and there are positive deltas after
    which [get()] is negative and differs from their sum. *)
Theorem counter_is_32_bit :
  (forall (c : CounterMetric.t) (v : Z),
      Int32.in_range (CounterMetric.get (CounterMetric.increment c v)) /\
      CounterMetric.get (CounterMetric.increment c v) mod 2 ^ 32 =
      (CounterMetric.get c + v) mod 2 ^ 32) /\
  (exists deltas : list Z,
      Forall (fun d => 0 < d /\ Int32.in_range d) deltas /\
      CounterMetric.get (increments (CounterMetric.make "c") deltas) < 0 /\
      CounterMetric.get (increments (CounterMetric.make "c") deltas)
      <> Zsum deltas).
Proof.
  split.
  - intros c v. split.
    + apply wrap_in_range.
    + apply wrap_congruent.
  - exists [2147483647; 1]. split; [|split].
    + repeat constructor; unfold Int32.min_int, Int32.max_int; lia.
    + vm_compute. reflexivity.
    + vm_compute. discriminate.
Qed.

(** C7: after [reset()] a counter reads 0 and an average reads 0.0,
    whatever they held; the same through the [IMetric] interface, which
    is how the flush cycle resets them. *)
Theorem reset_gives_zero :
  (forall c : CounterMetric.t, CounterMetric.get (CounterMetric.reset c) = 0) /\
  (forall a : AverageMetric.t,
      AverageMetric.get_average (AverageMetric.reset a) = 0%float) /\
  (forall c : CounterMetric.t,
      reset (Counter c) = Counter (CounterMetric.reset c)) /\
  (forall a : AverageMetric.t,
      reset (Average a) = Average (AverageMetric.reset a)).
Proof. repeat split. Qed.

(** ** Text *)

Lemma string_app_assoc (s1 s2 s3 : string) :
  (s1 ++ s2) ++ s3 = s1 ++ (s2 ++ s3).
Proof. induction s1 as [|c s1 IH]; simpl; [reflexivity | now rewrite IH]. Qed.

Lemma string_app_nil_r (s : string) : s ++ "" = s.
Proof. induction s as [|c s IH]; simpl; [reflexivity | now rewrite IH]. Qed.

Lemma In_app_string (c : ascii) (s1 s2 : string) :
  In c (list_ascii_of_string (s1 ++ s2)) ->
  In c (list_ascii_of_string s1) \/ In c (list_ascii_of_string s2).
Proof.
  induction s1 as [|c1 s1 IH]; simpl; [auto|].
  intros [->|Hin]; [auto|]. destruct (IH Hin); auto.
Qed.

(** ** Decimal text *)

Lemma string_of_uint_digits (d : Decimal.uint) :
  all_digits (NilEmpty.string_of_uint d) = true.
Proof. induction d; simpl; auto. Qed.

Lemma to_string_digits (z : Z) : 0 <= z -> all_digits (to_string z) = true.
Proof.
  intros Hz. unfold to_string. destruct z as [|p|p]; simpl.
  - reflexivity.
  - apply string_of_uint_digits.
  - lia.
Qed.

Lemma all_digits_In (s : string) (c : ascii) :
  all_digits s = true -> In c (list_ascii_of_string s) -> is_digit c = true.
Proof.
  induction s as [|c' s IH]; simpl; [tauto|].
  rewrite andb_true_iff. intros [Hc Hs] [->|Hin]; auto.
Qed.

(** A property checked on every integer of a range holds on the range. *)
Lemma forall_range (P : Z -> bool) (lo n : Z) :
  forallb P (map (fun i => lo + Z.of_nat i) (seq 0 (Z.to_nat n))) = true ->
  forall z, lo <= z < lo + n -> P z = true.
Proof.
  intros Hall z Hz. rewrite forallb_forall in Hall. apply Hall.
  apply in_map_iff. exists (Z.to_nat (z - lo)). split; [lia|].
  apply in_seq. lia.
Qed.

Lemma two_digits_shape (r : Z) :
  0 <= r < 100 -> matches "dd" (two_digits r) = true.
Proof.
  intros Hr. apply (forall_range (fun z => matches "dd" (two_digits z)) 0 100).
  - vm_compute. reflexivity.
  - lia.
Qed.

Lemma matches_dd (s : string) :
  matches "dd" s = true ->
  exists d1 d2, s = String d1 (String d2 "") /\
                is_digit d1 = true /\ is_digit d2 = true.
Proof.
  destruct s as [|d1 [|d2 [|]]]; simpl; try discriminate.
  - rewrite andb_false_r. discriminate.
  - rewrite andb_true_r, andb_true_iff. intros [H1 H2]. eauto.
  - rewrite !andb_false_r. discriminate.
Qed.

(** ** AverageMetric *)

Lemma round_half_even_nonneg (n d : Z) :
  0 <= n -> 0 < d -> 0 <= round_half_even n d.
Proof.
  intros Hn Hd. unfold round_half_even.
  pose proof (Z.div_pos n d Hn Hd).
  destruct (2 * (n mod d) ?= d); try lia.
  destruct (Z.even (n / d)); lia.
Qed.

(** The rendering of a double that is a number: optional sign, digits,
    a point, two digits. *)
Lemma fixed2_two_fraction_digits (x : float) :
  finite_double x = true -> two_fraction_digits (fixed2 x).
Proof.
  unfold finite_double, fixed2, two_fraction_digits.
  destruct (Prim2SF x) as [s|s| |s m e]; try discriminate; intros _.
  - exists (sign_string s ++ "0"), "0"%char, "0"%char.
    destruct s; repeat split; intros c Hin Hc; subst c; simpl in Hin;
      intuition discriminate.
  - set (h := if 0 <=? e then Z.pos m * 2 ^ e * 100
              else round_half_even (Z.pos m * 100) (2 ^ (- e))).
    assert (Hh : 0 <= h).
    { subst h. destruct (Z.leb_spec 0 e).
      - pose proof (Z.pow_nonneg 2 e ltac:(lia)). nia.
      - apply round_half_even_nonneg; [lia|]. apply Z.pow_pos_nonneg; lia. }
    destruct (matches_dd (two_digits (h mod 100))) as (d1 & d2 & Hd & H1 & H2).
    { apply two_digits_shape. apply Z.mod_pos_bound. lia. }
    exists (sign_string s ++ to_string (h / 100)), d1, d2.
    rewrite Hd. split; [|split; [exact H1|split; [exact H2|]]].
    + now rewrite string_app_assoc.
    + intros c Hin Hc. subst c.
      apply In_app_string in Hin. destruct Hin as [Hin|Hin].
      * destruct s; simpl in Hin; [destruct Hin as [Hin|[]]; discriminate | tauto].
      * apply all_digits_In in Hin; [discriminate|].
        apply to_string_digits. apply Z.div_pos; lia.
Qed.

(** The state after a run of [add]s that stays within the range of
    [count_]: the sum is the running double sum, the count the old count
    plus the number of calls. *)
Lemma adds_defined (vs : list float) (a : AverageMetric.t) :
  0 <= AverageMetric.count_ a ->
  AverageMetric.count_ a + Z.of_nat (List.length vs) <= Int32.max_int ->
  adds a vs =
  Some {| AverageMetric.name_ := AverageMetric.name_ a;
          AverageMetric.sum_ := fold_left PrimFloat.add vs (AverageMetric.sum_ a);
          AverageMetric.count_ :=
            AverageMetric.count_ a + Z.of_nat (List.length vs) |}.
Proof.
  revert a. induction vs as [|v vs IH]; intros a H0 Hmax.
  - simpl. rewrite Z.add_0_r. now destruct a.
  - cbn [adds]. unfold AverageMetric.add.
    assert (Hr : Int32.in_rangeb (AverageMetric.count_ a + 1) = true).
    { apply in_rangeb_spec. unfold Int32.in_range, Int32.min_int.
      cbn [List.length] in Hmax. lia. }
    rewrite Hr, IH; cbn [AverageMetric.count_ AverageMetric.name_
                          AverageMetric.sum_ List.length fold_left] in *;
      try lia.
    do 2 f_equal. lia.
Qed.

(** One [add] too many: [count_] would pass [INT_MAX]. *)
Lemma adds_undefined (vs : list float) (a : AverageMetric.t) :
  0 <= AverageMetric.count_ a <= Int32.max_int ->
  Int32.max_int < AverageMetric.count_ a + Z.of_nat (List.length vs) ->
  adds a vs = None.
Proof.
  revert a. induction vs as [|v vs IH]; intros a H0 Hmax.
  - simpl in Hmax. lia.
  - cbn [adds]. unfold AverageMetric.add.
    destruct (Int32.in_rangeb (AverageMetric.count_ a + 1)) eqn:Hr;
      [|reflexivity].
    apply in_rangeb_spec in Hr. unfold Int32.in_range in Hr.
    apply IH; cbn [AverageMetric.count_ List.length] in *; lia.
Qed.

(** C6 as stated fails: each 1 added to 2^53 is rounded away, so the
    mean of 2^53, 1, 1, -2^53 comes out as 0.0, and the arithmetic mean
    of these four numbers is 1/2. *)
Lemma average_mean_is_rounded : ~ mean_is_arithmetic_mean cancelling_samples.
Proof.
  intros (a & Ha & _ & Hq).
  vm_compute in Ha. injection Ha as <-.
  vm_compute in Hq. discriminate.
Qed.

(** Where no addition rounds the two readings agree: the mean of 2.0
    and 4.0 is 3.0. *)
Example mean_of_two_and_four : mean_is_arithmetic_mean [2; 4]%float.
Proof.
  eexists. split; [reflexivity|]. split; vm_compute; reflexivity.
Qed.

(** C6 (amended): after a reset and fewer than 2^31 calls of [add],
    [mean()] is the double quotient of the running double sum of the
    samples (added left to right, each addition rounded) by their
    number, and 0.0 when there are none; a never-touched average reads
    0.0; the rendering is [mean()] in fixed notation with two fraction
    digits, ["0.00"] when the count is 0, and whenever the mean is a
    number it ends in a point and exactly two digits. *)
Theorem average_mean_is_double_quotient
    (a0 : AverageMetric.t) (vs : list float) :
  Z.of_nat (List.length vs) <= Int32.max_int ->
  (exists a,
      adds (AverageMetric.reset a0) vs = Some a /\
      AverageMetric.get_average a =
        (if (List.length vs =? 0)%nat then 0%float
         else (float_sum vs / double_of_int (Z.of_nat (List.length vs)))%float) /\
      AverageMetric.value_string a = fixed2 (AverageMetric.get_average a) /\
      (finite_double (AverageMetric.get_average a) = true ->
       two_fraction_digits (AverageMetric.value_string a))) /\
  (forall name, AverageMetric.get_average (AverageMetric.make name) = 0%float) /\
  (forall a, AverageMetric.count_ a = 0 -> AverageMetric.value_string a = "0.00").
Proof.
  intros Hlen. split; [|split].
  - eexists. split; [|split; [|split]].
    + apply adds_defined; simpl; [lia | exact Hlen].
    + unfold AverageMetric.get_average, float_sum. simpl.
      destruct vs as [|v vs]; [reflexivity|].
      cbn [List.length Nat.eqb].
      destruct (Z.eqb_spec (Z.of_nat (S (List.length vs))) 0) as [E|_]; [lia|].
      reflexivity.
    + reflexivity.
    + apply fixed2_two_fraction_digits.
  - reflexivity.
  - intros a Ha. unfold AverageMetric.value_string, AverageMetric.get_average.
    rewrite Ha. reflexivity.
Qed.

Lemma average_mean_is_double_quotient_witness :
  Z.of_nat (List.length [2; 4]%float) <= Int32.max_int /\
  exists a,
    adds (AverageMetric.reset (AverageMetric.make "A")) [2; 4]%float = Some a /\
    AverageMetric.get_average a = 3%float /\
    AverageMetric.value_string a = "3.00".
Proof.
  assert (Hlen : Z.of_nat (List.length [2; 4]%float) <= Int32.max_int)
    by (vm_compute; discriminate).
  split; [exact Hlen|].
  destruct (average_mean_is_double_quotient (AverageMetric.make "A")
              [2; 4]%float Hlen) as [(a & Ha & Hm & Hs & _) _].
  exists a. split; [exact Ha|]. split.
  - rewrite Hm. reflexivity.
  - rewrite Hs, Hm. reflexivity.
Defined.

(** ** The flush cycle *)

Lemma concat_cons (x : string) (xs : list string) :
  String.concat "" (x :: xs) = x ++ String.concat "" xs.
Proof.
  destruct xs as [|y ys]; simpl; [now rewrite string_app_nil_r | reflexivity].
Qed.

Section FlushCycle.

Context {M : Type} `{IMetric M}.

Lemma State_eq (s1 s2 : State M) :
  metrics_ s1 = metrics_ s2 -> stop_flag_ s1 = stop_flag_ s2 ->
  file s1 = file s2 -> calls s1 = calls s2 -> s1 = s2.
Proof. destruct s1, s2; simpl; intros; subst; reflexivity. Qed.

Lemma nth_error_middle (done todo : list M) (x : M) :
  nth_error (done ++ x :: todo) (List.length done) = Some x.
Proof. induction done as [|d done IH]; simpl; [reflexivity | exact IH]. Qed.

Lemma update_middle (done todo : list M) (x y : M) :
  update (done ++ x :: todo) (List.length done) y = (done ++ y :: todo)%list.
Proof.
  induction done as [|d done IH]; simpl; [reflexivity | now rewrite IH].
Qed.

Lemma update_length (l : list M) (i : nat) (x : M) :
  List.length (update l i x) = List.length l.
Proof.
  revert i. induction l as [|h l IH]; intros [|i]; simpl; auto.
Qed.

(** The first loop, from the state in which the metrics [done] have
    been rendered and [todo] remain. *)
Lemma render_loop (me : thread) (todo done : list M) (oss : string)
    (s : State M) :
  metrics_ s = (done ++ todo)%list ->
  for_range (render_metric me) (List.length done) (List.length todo) oss s =
  (oss ++ String.concat "" (map field (entries todo)),
   add_calls (renders me (List.length done) (List.length todo)) s).
Proof.
  revert done oss s.
  induction todo as [|x todo IH]; intros done oss s Hm.
  - simpl. unfold ret. rewrite string_app_nil_r. f_equal.
    apply State_eq; simpl; auto using app_nil_r.
  - cbn [for_range List.length]. unfold bind at 1.
    unfold render_metric at 1. rewrite Hm, nth_error_middle.
    specialize (IH (done ++ [x])%list).
    rewrite length_app, Nat.add_1_r in IH. rewrite IH.
    + f_equal.
      * cbn [entries map]. rewrite concat_cons. unfold field at 2.
        cbn [fst snd]. now rewrite !string_app_assoc.
      * apply State_eq; simpl; auto.
        unfold renders. cbn [seq map]. now rewrite <- app_assoc.
    + simpl. now rewrite Hm, <- app_assoc.
Qed.

(** The second loop, from the state in which the metrics [done] have
    been reset and [todo] remain. *)
Lemma reset_loop (me : thread) (todo done : list M) (s : State M) :
  metrics_ s = (done ++ todo)%list ->
  for_range (fun i _ => reset_metric me i)
    (List.length done) (List.length todo) tt s =
  (tt, add_calls (resets me (List.length done) (List.length todo))
         (set_metrics (done ++ map reset todo)%list s)).
Proof.
  revert done s.
  induction todo as [|x todo IH]; intros done s Hm.
  - simpl. unfold ret. f_equal.
    apply State_eq; simpl; auto using app_nil_r.
  - cbn [for_range List.length]. unfold bind at 1.
    unfold reset_metric at 1. rewrite Hm, nth_error_middle.
    specialize (IH (done ++ [reset x])%list).
    rewrite length_app, Nat.add_1_r in IH. rewrite IH.
    + f_equal. apply State_eq; simpl; auto.
      * now rewrite <- app_assoc.
      * unfold resets. cbn [seq map]. now rewrite <- app_assoc.
    + simpl. now rewrite update_middle, <- app_assoc.
Qed.

(** [flush_locked] in closed form. *)
Lemma flush_locked_eq (me : thread) (now : time_point) (s : State M) :
  flush_locked me now s =
  (tt,
   {| metrics_ := map reset (metrics_ s);
      stop_flag_ := stop_flag_ s;
      file := ofstream_append (file s) (record now (entries (metrics_ s)));
      calls := (calls s ++ cycle me (List.length (metrics_ s))
                             (record now (entries (metrics_ s))))%list |}).
Proof.
  unfold flush_locked, bind, size.
  pose proof (render_loop me (metrics_ s) [] (timestamp now) s eq_refl) as R.
  cbn [List.length app] in R. rewrite R. clear R.
  unfold write_file.
  match goal with
  | |- context [for_range _ _ _ tt ?s1] =>
      pose proof (reset_loop me (metrics_ s) [] s1 eq_refl) as R
  end.
  cbn [List.length app] in R. rewrite R. clear R.
  f_equal. apply State_eq; simpl; auto.
  - unfold record. now rewrite string_app_assoc.
  - unfold cycle, record. rewrite <- !app_assoc, string_app_assoc. reflexivity.
Qed.

(** C1: one flush cycle calls render on every metric in the order of
    registration, then writes the composed record to the sink once,
    and only then calls reset on every metric in the same order; the
    record has one (name, value) entry per metric in that order, and
    after the cycle every metric is in its reset state.  The order of
    the vector is the order of registration: [register_metric] puts
    the new metric last. *)
Theorem flush_cycle_renders_writes_resets
    (me : thread) (now : time_point) (s : State M) :
  let s' := snd (flush_locked me now s) in
  let n := List.length (metrics_ s) in
  let es := entries (metrics_ s) in
  calls s' =
    (calls s ++ renders me 0 n ++ [(me, EvWrite (record now es))] ++
     resets me 0 n)%list /\
  List.length es = n /\
  (forall i metric, nth_error (metrics_ s) i = Some metric ->
                    nth_error es i = Some (name metric, value_string metric)) /\
  file s' = ofstream_append (file s) (record now es) /\
  metrics_ s' = map reset (metrics_ s) /\
  stop_flag_ s' = stop_flag_ s /\
  (forall metric,
      metrics_ (snd (register_metric metric s)) = (metrics_ s ++ [metric])%list).
Proof.
  intros s' n es. subst s' n es. rewrite flush_locked_eq. simpl.
  repeat split.
  - unfold entries. apply length_map.
  - intros i metric Hi. unfold entries.
    rewrite nth_error_map, Hi. reflexivity.
Qed.

End FlushCycle.

(** ** The text of a record *)





















Section FlushCycleCases.

Context {M : Type} `{IMetric M}.

(** C9: a flush cycle on a registry without metrics still makes its
    one write, and what it appends to the sink is the timestamp
    followed at once by the newline. *)
Theorem empty_registry_record
    (me : thread) (now : time_point) (s : State M) (old : string) :
  metrics_ s = [] ->
  file s = Contents old ->
  let s' := snd (flush_locked me now s) in
  file s' = Contents (old ++ timestamp now ++ newline) /\
  calls s' = (calls s ++ [(me, EvWrite (timestamp now ++ newline))])%list /\
  metrics_ s' = [].
Proof.
  intros Hm Hf s'. subst s'. rewrite flush_locked_eq. cbn [snd file calls metrics_].
  rewrite Hm, Hf. repeat split.
Qed.

Lemma flush_steps_S (me : thread) (now : time_point) (k : nat)
    (p : flush_pc) (s : State M) :
  flush_steps me now (S k) p s =
  flush_steps me now k (fst (flush_step me now p s))
    (snd (flush_step me now p s)).
Proof.
  cbn [flush_steps]. unfold bind.
  now destruct (flush_step me now p s).
Qed.

Lemma flush_steps_add (me : thread) (now : time_point) (k1 k2 : nat)
    (p : flush_pc) (s : State M) :
  flush_steps me now (k1 + k2) p s =
  flush_steps me now k2 (fst (flush_steps me now k1 p s))
    (snd (flush_steps me now k1 p s)).
Proof.
  revert p s. induction k1 as [|k1 IH]; intros p s; [reflexivity|].
  cbn [Nat.add]. rewrite !flush_steps_S. apply IH.
Qed.

Lemma for_range_S {A : Type} (body : nat -> A -> Cmd M A) (from k : nat)
    (acc : A) (s : State M) :
  for_range body from (S k) acc s =
  for_range body (S from) k (fst (body from acc s)) (snd (body from acc s)).
Proof.
  cbn [for_range]. unfold bind. now destruct (body from acc s).
Qed.

Lemma flush_step_render (me : thread) (now : time_point) (i n : nat)
    (oss : string) (s : State M) :
  (i < n)%nat ->
  flush_step me now (FRender i n oss) s =
  (FRender (S i) n (fst (render_metric me i oss s)),
   snd (render_metric me i oss s)).
Proof.
  intros Hlt. apply Nat.ltb_lt in Hlt. cbn [flush_step]. rewrite Hlt.
  unfold bind, ret. now destruct (render_metric me i oss s).
Qed.

Lemma flush_step_reset (me : thread) (now : time_point) (i n : nat)
    (s : State M) :
  (i < n)%nat ->
  flush_step me now (FReset i n) s =
  (FReset (S i) n, snd (reset_metric me i s)).
Proof.
  intros Hlt. apply Nat.ltb_lt in Hlt. cbn [flush_step]. rewrite Hlt.
  unfold bind, ret. now destruct (reset_metric me i s).
Qed.

(** The first loop taken step by step is the first loop. *)
Lemma render_steps (me : thread) (now : time_point) (k from n : nat)
    (oss : string) (s : State M) :
  (from + k = n)%nat ->
  flush_steps me now k (FRender from n oss) s =
  (FRender n n (fst (for_range (render_metric me) from k oss s)),
   snd (for_range (render_metric me) from k oss s)).
Proof.
  revert from oss s. induction k as [|k IH]; intros from oss s Hn.
  - rewrite Nat.add_0_r in Hn. subst. reflexivity.
  - rewrite flush_steps_S, for_range_S, flush_step_render by lia.
    cbn [fst snd]. apply IH. lia.
Qed.

(** The second loop taken step by step is the second loop. *)
Lemma reset_steps (me : thread) (now : time_point) (k from n : nat)
    (s : State M) :
  (from + k = n)%nat ->
  flush_steps me now k (FReset from n) s =
  (FReset n n,
   snd (for_range (fun i _ => reset_metric me i) from k tt s)).
Proof.
  revert from s. induction k as [|k IH]; intros from s Hn.
  - rewrite Nat.add_0_r in Hn. subst. reflexivity.
  - rewrite flush_steps_S, for_range_S, flush_step_reset by lia.
    cbn [fst snd].
    destruct (fst (reset_metric me from s)).
    apply IH. lia.
Qed.

Lemma flush_step_enter (me : thread) (now : time_point) (s : State M) :
  flush_step me now FEnter s =
  (FRender 0 (List.length (metrics_ s)) (timestamp now), s).
Proof. reflexivity. Qed.

Lemma flush_step_render_end (me : thread) (now : time_point) (n : nat)
    (oss : string) (s : State M) :
  flush_step me now (FRender n n oss) s = (FWrite n (oss ++ newline), s).
Proof. cbn [flush_step]. now rewrite Nat.ltb_irrefl. Qed.

Lemma flush_step_write (me : thread) (now : time_point) (n : nat)
    (oss : string) (s : State M) :
  flush_step me now (FWrite n oss) s =
  (FReset 0 n, snd (write_file me oss s)).
Proof. reflexivity. Qed.

Lemma flush_step_reset_end (me : thread) (now : time_point) (n : nat)
    (s : State M) :
  flush_step me now (FReset n n) s = (FDone, s).
Proof. cbn [flush_step]. now rewrite Nat.ltb_irrefl. Qed.

(** [flush_locked] taken step by step without interference is
    [flush_locked]. *)
Lemma flush_steps_flush_locked (me : thread) (now : time_point)
    (s : State M) :
  flush_steps me now (2 * List.length (metrics_ s) + 4) FEnter s =
  (FDone, snd (flush_locked me now s)).
Proof.
  set (n := List.length (metrics_ s)).
  replace (2 * n + 4)%nat with (S (n + S (S (n + 1))))%nat by lia.
  rewrite flush_steps_S, flush_step_enter. cbn [fst snd]. fold n.
  rewrite flush_steps_add, (render_steps me now n 0 n) by lia.
  cbn [fst snd].
  rewrite flush_steps_S, flush_step_render_end. cbn [fst snd].
  rewrite flush_steps_S, flush_step_write. cbn [fst snd].
  rewrite flush_steps_add, (reset_steps me now n 0 n) by lia.
  cbn [fst snd].
  rewrite flush_steps_S, flush_step_reset_end. cbn [fst snd flush_steps].
  unfold ret. f_equal. unfold flush_locked, bind, size. fold n.
  destruct (for_range (render_metric me) 0 n (timestamp now) s) as [oss s1].
  unfold write_file. cbn [fst snd].
  now destruct (for_range (fun i _ => reset_metric me i) 0 n tt _).
Qed.

End FlushCycleCases.

Lemma empty_registry_record_witness :
  metrics_ (set_metrics [] (demo_state (Contents "old"))) = [] /\
  file (set_metrics [] (demo_state (Contents "old"))) = Contents "old" /\
  file (snd (flush_locked Worker demo_time
               (set_metrics [] (demo_state (Contents "old"))))) =
  Contents ("old2026-10-30 04:05:06.007" ++ newline).
Proof.
  split; [reflexivity|]. split; [reflexivity|].
  destruct (empty_registry_record Worker demo_time
              (set_metrics [] (demo_state (Contents "old"))) "old"
              eq_refl eq_refl) as [Hfile _].
  rewrite Hfile. reflexivity.
Defined.

(** ** The scheduler *)

Section Scheduler.
Context {M : Type} `{IMetric M}.

Lemma render_metric_stop_flag (me : thread) (i : nat) (oss : string)
    (st : State M) :
  stop_flag_ (snd (render_metric me i oss st)) = stop_flag_ st.
Proof. unfold render_metric. now destruct (nth_error (metrics_ st) i). Qed.

Lemma reset_metric_stop_flag (me : thread) (i : nat) (st : State M) :
  stop_flag_ (snd (reset_metric me i st)) = stop_flag_ st.
Proof. unfold reset_metric. now destruct (nth_error (metrics_ st) i). Qed.

Lemma flush_step_stop_flag (me : thread) (now : time_point) (p : flush_pc)
    (st : State M) :
  stop_flag_ (snd (flush_step me now p st)) = stop_flag_ st.
Proof.
  destruct p as [|i n oss|n oss|i n|]; cbn [flush_step]; try reflexivity.
  - destruct (i <? n)%nat; [|reflexivity].
    unfold bind, ret.
    pose proof (render_metric_stop_flag me i oss st) as E.
    now destruct (render_metric me i oss st).
  - destruct (i <? n)%nat; [|reflexivity].
    unfold bind, ret.
    pose proof (reset_metric_stop_flag me i st) as E.
    now destruct (reset_metric me i st).
Qed.

Lemma worker_holds_notify_one (w : worker_pc) :
  worker_holds (notify_one w) = worker_holds w.
Proof. now destruct w. Qed.

Ltac use_pcs :=
  repeat match goal with
    | E : worker _ = _ |- _ => rewrite E in *; clear E
    | E : owner _ = _ |- _ => rewrite E in *; clear E
    | E : clients _ _ = _ |- _ => rewrite E in *; clear E
    | E : mutex_ _ = _ |- _ => rewrite E in *; clear E
    end.

Lemma mutex_inv_step (s s' : System M) (l : label) :
  mutex_inv s -> step s l s' -> mutex_inv s'.
Proof.
  intros IH Hstep. unfold mutex_inv in *.
  destruct Hstep; intros t;
    pose proof (IH Worker) as IHw; pose proof (IH Owner) as IHo;
    pose proof (IH t) as IHt;
    try match goal with
      | E : clients _ ?k = _ |- _ => pose proof (IH (Client k)) as IHk
      end;
    clear IH;
    destruct t as [| |j]; unfold holds in *; simpl in *;
    rewrite ?worker_holds_notify_one;
    try match goal with
      | |- context [(?j =? ?k)%nat] =>
          destruct (Nat.eqb_spec j k); [subst j|]
      end;
    use_pcs; simpl in *;
    try tauto; try (intuition congruence).
Qed.

Lemma lifetime_inv_step (s s' : System M) (l : label) :
  lifetime_inv s -> step s l s' -> lifetime_inv s'.
Proof.
  intros IH Hstep. unfold lifetime_inv in *.
  destruct Hstep; simpl in *; intros Ho j;
    try (specialize (IH Ho); pose proof (IH j));
    try match goal with
      | E : clients _ ?k = _ |- _ =>
          try rewrite (IH k) in E; try discriminate
      end;
    try match goal with
      | |- context [(?j =? ?k)%nat] =>
          destruct (Nat.eqb_spec j k); [subst j|]
      end;
    try congruence; auto;
    try (apply IH; congruence).
Qed.

Lemma stop_inv_step (s s' : System M) (l : label) :
  stop_inv s -> step s l s' -> stop_inv s'.
Proof.
  intros IH Hstep. unfold stop_inv in *.
  destruct Hstep; simpl in *; rewrite ?flush_step_stop_flag;
    use_pcs; simpl in *; auto.
Qed.

Lemma wake_inv_step (s s' : System M) (l : label) :
  stop_inv s -> wake_inv s -> step s l s' -> wake_inv s'.
Proof.
  intros Hs IH Hstep. unfold wake_inv, stop_inv in *.
  destruct Hstep; simpl in *; use_pcs; simpl in *; auto;
    try discriminate.
  - rewrite H1 in Hs. destruct (owner s); discriminate.
  - intros _. now destruct (worker s).
Qed.

Lemma flush_inv_step (s s' : System M) (l : label) :
  mutex_inv s -> flush_inv s -> step s l s' -> flush_inv s'.
Proof.
  intros Hm IH Hstep. unfold flush_inv in *.
  pose proof (Hm Worker) as Hw. pose proof (Hm Owner) as Ho.
  unfold holds in *.
  destruct Hstep; simpl in *; rewrite ?flush_step_stop_flag;
    use_pcs; simpl in *; auto; try congruence.
  - intros _. destruct Ho as [Ho _]. rewrite (Ho eq_refl) in Hw.
    destruct (worker s); simpl in *; auto; destruct Hw as [Hw _];
      discriminate (Hw eq_refl).
  - intros Hs. specialize (IH Hs). now destruct (worker s).
Qed.

Lemma join_inv_step (s s' : System M) (l : label) :
  join_inv s -> step s l s' -> join_inv s'.
Proof.
  intros IH Hstep. unfold join_inv in *.
  destruct Hstep; simpl in *; auto; try discriminate;
    intros Ho; specialize (IH Ho); try congruence.
Qed.

Lemma Inv_construct (f : File) (period t0 : Z) :
  Inv (construct (M := M) f period t0).
Proof.
  unfold Inv, mutex_inv, lifetime_inv, stop_inv, wake_inv, flush_inv,
    join_inv. simpl. repeat split; try discriminate; auto.
  - destruct t; discriminate.
Qed.

Lemma Inv_step (s s' : System M) (l : label) :
  Inv s -> step s l s' -> Inv s'.
Proof.
  intros (Hm & Hl & Hs & Hw & Hf & Hj) Hstep.
  split; [|split; [|split; [|split; [|split]]]].
  - eapply mutex_inv_step; eauto.
  - eapply lifetime_inv_step; eauto.
  - eapply stop_inv_step; eauto.
  - eapply wake_inv_step; eauto.
  - eapply flush_inv_step; eauto.
  - eapply join_inv_step; eauto.
Qed.

Lemma Inv_steps (s s' : System M) (ls : list label) :
  Inv s -> steps s ls s' -> Inv s'.
Proof. intros Hi Hs. induction Hs; eauto using Inv_step. Qed.

Lemma reachable_Inv (s : System M) : reachable s -> Inv s.
Proof.
  intros (f & period & t0 & ls & Hs).
  eapply Inv_steps; [apply Inv_construct | exact Hs].
Qed.


Lemma renders_S (t : thread) (i : nat) :
  renders t 0 (S i) = (renders t 0 i ++ [(t, EvRender i)])%list.
Proof. unfold renders. now rewrite seq_S, map_app. Qed.

Lemma resets_S (t : thread) (i : nat) :
  resets t 0 (S i) = (resets t 0 i ++ [(t, EvReset i)])%list.
Proof. unfold resets. now rewrite seq_S, map_app. Qed.

Lemma nth_error_in_range (l : list M) (i : nat) :
  (i < List.length l)%nat -> exists x, nth_error l i = Some x.
Proof.
  intros Hi. destruct (nth_error l i) eqn:E; [eauto|].
  apply nth_error_None in E. lia.
Qed.

(** One step of a cycle extends the calls of the cycle and keeps the
    number of metrics. *)
Lemma flush_step_progress (me : thread) (now : time_point) (p : flush_pc)
    (st : State M) (evs : list (thread * Event)) :
  progress me p (List.length (metrics_ st)) evs ->
  p <> FDone ->
  exists new,
    calls (snd (flush_step me now p st)) = (calls st ++ new)%list /\
    List.length (metrics_ (snd (flush_step me now p st))) =
      List.length (metrics_ st) /\
    progress me (fst (flush_step me now p st))
      (List.length (metrics_ st)) (evs ++ new)%list.
Proof.
  intros Hp Hne. destruct p as [|i n oss|n oss|i n|]; cbn [progress] in Hp.
  - subst evs. exists []. rewrite flush_step_enter. cbn [fst snd progress].
    rewrite app_nil_r. repeat split; auto. lia.
  - destruct Hp as (-> & Hi & ->).
    destruct (Nat.eq_dec i (List.length (metrics_ st))) as [->|Hlt].
    + exists []. rewrite flush_step_render_end. cbn [fst snd progress].
      rewrite !app_nil_r. auto.
    + rewrite flush_step_render by lia. cbn [fst snd progress].
      destruct (nth_error_in_range (metrics_ st) i ltac:(lia)) as [x Hx].
      exists [(me, EvRender i)]. unfold render_metric. rewrite Hx.
      cbn [snd record_call calls metrics_]. rewrite renders_S.
      repeat split; auto. lia.
  - destruct Hp as (-> & ->). exists [(me, EvWrite oss)].
    rewrite flush_step_write. cbn [fst snd progress write_file record_call
                                     set_file calls metrics_].
    repeat split; auto; try lia. exists oss. cbn [resets seq map].
    now rewrite app_nil_r.
  - destruct Hp as (-> & Hi & text & ->).
    destruct (Nat.eq_dec i (List.length (metrics_ st))) as [->|Hlt].
    + exists []. rewrite flush_step_reset_end. cbn [fst snd progress].
      rewrite !app_nil_r. repeat split; auto. exists text. reflexivity.
    + rewrite flush_step_reset by lia. cbn [fst snd progress].
      destruct (nth_error_in_range (metrics_ st) i ltac:(lia)) as [x Hx].
      exists [(me, EvReset i)]. unfold reset_metric. rewrite Hx.
      cbn [snd record_call set_metrics calls metrics_].
      rewrite update_length, resets_S.
      repeat split; auto; try lia. exists text.
      now rewrite <- !app_assoc.
  - contradiction.
Qed.

Lemma flush_pc_of_notify_one (s : System M) (t : thread) :
  flush_pc_of (with_worker (notify_one (worker s)) s) t = flush_pc_of s t.
Proof. destruct t; simpl; auto. now destruct (worker s). Qed.

(** The holder of the mutex, read off the program counters. *)
Lemma holder (s : System M) (t : thread) :
  mutex_inv s -> holds s t = true -> mutex_ s = Some t.
Proof. intros Hm Hh. now apply Hm. Qed.

Ltac find_holder Hmx :=
  try match goal with
    | E : worker ?s = ?pc |- _ =>
        assert (mutex_ s = Some Worker)
          by (apply (holder s Worker Hmx); unfold holds; rewrite E;
              reflexivity)
    end;
  try match goal with
    | E : owner ?s = ?pc |- _ =>
        assert (mutex_ s = Some Owner)
          by (apply (holder s Owner Hmx); unfold holds; rewrite E;
              reflexivity)
    end;
  try match goal with
    | E : clients ?s ?k = ?pc |- _ =>
        assert (mutex_ s = Some (Client k))
          by (apply (holder s (Client k) Hmx); unfold holds; rewrite E;
              reflexivity)
    end.

Lemma log_inv_step (s s' : System M) (l : label) :
  mutex_inv s -> log_inv s -> step s l s' -> log_inv s'.
Proof.
  intros Hmx (done & partial & Hc & Hs & Hp) Hstep. unfold log_inv.
  destruct Hstep; find_holder Hmx;
  lazymatch goal with
  | Hne : _ <> FDone |- _ => idtac
  | E : worker _ = WFlush FDone |- _ => idtac
  | E : clients _ _ = CFlush FDone |- _ => idtac
  | _ =>
      exists done, partial; simpl; split; [exact Hc|]; split; [exact Hs|];
      rewrite ?update_length, ?flush_pc_of_notify_one;
      try (use_pcs; simpl in *; rewrite ?Nat.eqb_refl; simpl; use_pcs;
           simpl in *; assumption);
      try (destruct (mutex_ s) as [[| |j]|]; simpl in *;
           try match goal with
             | |- context [(?j =? ?k)%nat] =>
                 destruct (Nat.eqb_spec j k); [subst j|]
             end;
           use_pcs; simpl in *; auto; try discriminate)
  end.
  - (* the scheduler takes a step of its cycle *)
    match goal with
    | Hpc : worker s = WFlush p, Hne : p <> FDone,
      Hh : mutex_ s = Some Worker |- _ =>
        rewrite Hh in Hp; simpl in Hp; rewrite Hpc in Hp;
        destruct (flush_step_progress Worker now p (shared s) partial Hp Hne)
          as (new & Hcalls & Hlen & Hprog);
        exists done, (partial ++ new)%list; simpl;
        rewrite Hcalls, Hc, Hh, Hlen, <- app_assoc; auto
    end.
  - (* the scheduler's cycle is complete *)
    match goal with
    | Hpc : worker s = WFlush FDone, Hh : mutex_ s = Some Worker |- _ =>
        rewrite Hh in Hp; simpl in Hp; rewrite Hpc in Hp;
        destruct Hp as [text ->];
        exists (done ++ cycle Worker (List.length (metrics_ (shared s)))
                          text)%list, [];
        simpl; rewrite app_nil_r, Hh; simpl;
        split; [exact Hc|]; split; [now apply serial_cycle | reflexivity]
    end.
  - (* a client takes a step of its cycle *)
    match goal with
    | Hpc : clients s k = CFlush p, Hne : p <> FDone,
      Hh : mutex_ s = Some (Client k) |- _ =>
        rewrite Hh in Hp; simpl in Hp; rewrite Hpc in Hp;
        destruct (flush_step_progress (Client k) now p (shared s) partial
                    Hp Hne) as (new & Hcalls & Hlen & Hprog);
        exists done, (partial ++ new)%list; simpl;
        rewrite Hcalls, Hc, Hh, Hlen, <- app_assoc; simpl;
        rewrite Nat.eqb_refl; auto
    end.
  - (* a client's cycle is complete *)
    match goal with
    | Hpc : clients s k = CFlush FDone,
      Hh : mutex_ s = Some (Client k) |- _ =>
        rewrite Hh in Hp; simpl in Hp; rewrite Hpc in Hp;
        destruct Hp as [text ->];
        exists (done ++ cycle (Client k)
                          (List.length (metrics_ (shared s))) text)%list, [];
        simpl; rewrite app_nil_r;
        split; [exact Hc|]; split; [now apply serial_cycle | reflexivity]
    end.
Qed.

Lemma log_inv_construct (f : File) (period t0 : Z) :
  log_inv (construct (M := M) f period t0).
Proof. exists [], []. simpl. auto using serial_nil. Qed.

Lemma log_inv_steps (s s' : System M) (ls : list label) :
  Inv s -> log_inv s -> steps s ls s' -> log_inv s'.
Proof.
  intros Hi Hl Hs. induction Hs as [|s ls s' l s'' Hs IH Hstep]; [exact Hl|].
  eapply log_inv_step; [|apply IH; assumption|exact Hstep].
  apply (Inv_steps s s' ls Hi Hs).
Qed.

Lemma reachable_log_inv (s : System M) : reachable s -> log_inv s.
Proof.
  intros (f & period & t0 & ls & Hs).
  eapply log_inv_steps;
    [apply Inv_construct | apply log_inv_construct | exact Hs].
Qed.

Lemma steps_app (s1 s2 s3 : System M) (l1 l2 : list label) :
  steps s1 l1 s2 -> steps s2 l2 s3 -> steps s1 (l1 ++ l2)%list s3.
Proof.
  intros H1 H2. induction H2 as [|s2 ls s' l s'' Hs IH Hstep].
  - now rewrite app_nil_r.
  - rewrite app_assoc. eapply steps_snoc; eauto.
Qed.

Lemma reachable_steps (s s' : System M) (ls : list label) :
  reachable s -> steps s ls s' -> reachable s'.
Proof.
  intros (f & period & t0 & l0 & H0) Hs.
  exists f, period, t0, (l0 ++ ls)%list. eapply steps_app; eauto.
Qed.

Lemma reachable_step (s s' : System M) (l : label) :
  reachable s -> step s l s' -> reachable s'.
Proof.
  intros Hr Hstep. apply (reachable_steps s s' ([] ++ [l]) Hr).
  eapply steps_snoc; [apply steps_refl | exact Hstep].
Qed.

Lemma renders_split (t : thread) (i n : nat) :
  (i <= n)%nat -> renders t 0 n = (renders t 0 i ++ renders t i (n - i))%list.
Proof.
  intros Hi. unfold renders. rewrite <- map_app, <- seq_app.
  do 2 f_equal. lia.
Qed.

Lemma resets_split (t : thread) (i n : nat) :
  (i <= n)%nat -> resets t 0 n = (resets t 0 i ++ resets t i (n - i))%list.
Proof.
  intros Hi. unfold resets. rewrite <- map_app, <- seq_app.
  do 2 f_equal. lia.
Qed.

(** The calls of a cycle in progress are the beginning of a whole
    cycle. *)
Lemma progress_prefix (t : thread) (p : flush_pc) (n : nat)
    (evs : list (thread * Event)) :
  progress t p n evs -> exists rest text, (evs ++ rest)%list = cycle t n text.
Proof.
  destruct p as [|i m oss|m oss|i m|]; cbn [progress].
  - intros ->. exists (cycle t n ""), "". reflexivity.
  - intros (-> & Hi & ->).
    exists (renders t i (n - i) ++ [(t, EvWrite "")] ++ resets t 0 n)%list, "".
    unfold cycle. now rewrite (renders_split t i n Hi), <- app_assoc.
  - intros (-> & ->). exists ([(t, EvWrite "")] ++ resets t 0 n)%list, "".
    reflexivity.
  - intros (-> & Hi & text & ->). exists (resets t i (n - i)), text.
    unfold cycle. now rewrite (resets_split t i n Hi), <- !app_assoc.
  - intros [text ->]. exists [], text. now rewrite app_nil_r.
Qed.

Lemma in_flush_holds (s : System M) (t : thread) :
  in_flush s t -> holds s t = true.
Proof.
  destruct t as [| |k]; simpl.
  - now intros [p ->].
  - tauto.
  - now intros [p ->].
Qed.

Lemma in_flush_pc (s : System M) (t : thread) :
  in_flush s t <-> exists p, flush_pc_of s t = Some p.
Proof.
  destruct t as [| |k]; simpl.
  - split; intros [p Hp]; [rewrite Hp; eauto|].
    destruct (worker s); try discriminate; eauto.
  - split; [tauto | intros [p Hp]; discriminate].
  - split; intros [p Hp]; [rewrite Hp; eauto|].
    destruct (clients s k); try discriminate; eauto.
Qed.

(** C4: in every state the system can reach, a thread that is inside
    [flush_locked] (the scheduler for its periodic flush, a client
    for [flush_now]) holds the one mutex, so no two threads are
    inside it together; and the calls made on the metrics and the
    sink so far are whole cycles (all renders, one write, all resets,
    by one thread) one after another, followed only by the beginning
    of the cycle of the thread that is inside now.  So cycles
    serialize: no record is interleaved with another and no metric is
    reset twice for one record. *)
Theorem flush_cycles_are_serialized (s : System M) :
  reachable s ->
  (forall t, in_flush s t -> mutex_ s = Some t) /\
  (forall t1 t2, in_flush s t1 -> in_flush s t2 -> t1 = t2) /\
  exists done partial,
    calls (shared s) = (done ++ partial)%list /\
    serial done /\
    ((forall t, ~ in_flush s t) -> partial = []) /\
    (forall t, in_flush s t ->
               exists rest text,
                 (partial ++ rest)%list =
                 cycle t (List.length (metrics_ (shared s))) text).
Proof.
  intros Hr. pose proof (reachable_Inv s Hr) as (Hmx & _).
  assert (Hh : forall t, in_flush s t -> mutex_ s = Some t).
  { intros t Ht. apply Hmx. now apply in_flush_holds. }
  split; [exact Hh|]. split.
  - intros t1 t2 H1 H2. apply Hh in H1. apply Hh in H2. congruence.
  - destruct (reachable_log_inv s Hr) as (done & partial & Hc & Hs & Hp).
    exists done, partial. split; [exact Hc|]. split; [exact Hs|]. split.
    + intros Hnone. destruct (mutex_ s) as [t|]; [|exact Hp].
      destruct (flush_pc_of s t) as [p|] eqn:E; [|exact Hp].
      exfalso. apply (Hnone t). apply in_flush_pc. eauto.
    + intros t Ht. rewrite (Hh t Ht) in Hp.
      apply in_flush_pc in Ht. destruct Ht as [p Ht]. rewrite Ht in Hp.
      eapply progress_prefix; eauto.
Qed.



(** With the stop flag set and the mutex free or its own, the scheduler
    is two statements from its end. *)
Lemma worker_exits (s : System M) :
  stop_flag_ (shared s) = true ->
  (worker_holds (worker s) = false -> mutex_ s = None) ->
  waiting (worker s) = false -> flushing (worker s) = false ->
  exists ls s',
    steps s ls s' /\ Forall (fun l => l = LThread Worker) ls /\
    (List.length ls <= 2)%nat /\ worker s' = WExit /\ owner s' = owner s.
Proof.
  intros Hstop Hfree Hw Hf.
  destruct (worker s) eqn:E; try discriminate.
  - (* before line 125 *)
    exists ([] ++ [LThread Worker] ++ [LThread Worker])%list.
    eexists. split; [|split; [|split; [|split]]].
    + rewrite app_assoc. eapply steps_snoc.
      * eapply steps_snoc; [apply steps_refl|].
        apply step_w_lock; [exact E | now apply Hfree].
      * apply step_w_loop_exit; [reflexivity | exact Hstop].
    + repeat constructor.
    + simpl. lia.
    + reflexivity.
    + reflexivity.
  - (* at the loop test *)
    exists ([] ++ [LThread Worker])%list. eexists.
    split; [|split; [|split; [|split]]].
    + eapply steps_snoc; [apply steps_refl|].
      apply step_w_loop_exit; [exact E | exact Hstop].
    + repeat constructor.
    + simpl. lia.
    + reflexivity.
    + reflexivity.
  - (* woken inside wait_for *)
    exists ([] ++ [LThread Worker] ++ [LThread Worker])%list.
    eexists. split; [|split; [|split; [|split]]].
    + rewrite app_assoc. eapply steps_snoc.
      * eapply steps_snoc; [apply steps_refl|].
        apply step_w_relock; [exact E | now apply Hfree].
      * apply step_w_break; [reflexivity | exact Hstop].
    + repeat constructor.
    + simpl. lia.
    + reflexivity.
    + reflexivity.
  - (* at line 129 *)
    exists ([] ++ [LThread Worker])%list. eexists.
    split; [|split; [|split; [|split]]].
    + eapply steps_snoc; [apply steps_refl|].
      apply step_w_break; [exact E | exact Hstop].
    + repeat constructor.
    + simpl. lia.
    + reflexivity.
    + reflexivity.
  - (* ended *)
    exists [], s. split; [apply steps_refl|]. repeat split; auto.
Qed.


Lemma flush_pc_eq_dec (p : flush_pc) : p = FDone \/ p <> FDone.
Proof. destruct p; [right|right|right|right|left]; congruence. Qed.

Lemma flush_steps_done (me : thread) (now : time_point) (k : nat)
    (st : State M) :
  flush_steps me now k FDone st = (FDone, st).
Proof. induction k as [|k IH]; [reflexivity|]. now rewrite flush_steps_S. Qed.

Lemma flush_step_render_past (me : thread) (now : time_point) (i n : nat)
    (oss : string) (st : State M) :
  (n <= i)%nat ->
  flush_step me now (FRender i n oss) st = (FWrite n (oss ++ newline), st).
Proof.
  intros Hi. cbn [flush_step].
  destruct (Nat.ltb_spec i n); [lia | reflexivity].
Qed.

Lemma flush_step_reset_past (me : thread) (now : time_point) (i n : nat)
    (st : State M) :
  (n <= i)%nat -> flush_step me now (FReset i n) st = (FDone, st).
Proof.
  intros Hi. cbn [flush_step].
  destruct (Nat.ltb_spec i n); [lia | reflexivity].
Qed.

Lemma reset_phase_completes (me : thread) (now : time_point) (k i n : nat)
    (st : State M) :
  (n - i = k)%nat ->
  fst (flush_steps me now (k + 1) (FReset i n) st) = FDone.
Proof.
  revert i st. induction k as [|k IH]; intros i st Hk.
  - cbn [Nat.add]. rewrite flush_steps_S, flush_step_reset_past by lia.
    reflexivity.
  - cbn [Nat.add]. rewrite flush_steps_S, flush_step_reset by lia.
    cbn [fst snd]. apply IH. lia.
Qed.

Lemma render_phase_completes (me : thread) (now : time_point) (k i n : nat)
    (oss : string) (st : State M) :
  (n - i = k)%nat ->
  fst (flush_steps me now (k + n + 3) (FRender i n oss) st) = FDone.
Proof.
  revert i oss st. induction k as [|k IH]; intros i oss st Hk.
  - cbn [Nat.add]. replace (n + 3)%nat with (S (S (n + 1))) by lia.
    rewrite flush_steps_S, flush_step_render_past by lia. cbn [fst snd].
    rewrite flush_steps_S, flush_step_write. cbn [fst snd].
    apply reset_phase_completes. lia.
  - cbn [Nat.add]. rewrite flush_steps_S, flush_step_render by lia.
    cbn [fst snd]. apply IH. lia.
Qed.

(** From anywhere inside it, [flush_locked] comes to its end. *)
Lemma flush_completes (me : thread) (now : time_point) (p : flush_pc)
    (st : State M) :
  fst (flush_steps me now (flush_fuel p (List.length (metrics_ st))) p st)
  = FDone.
Proof.
  destruct p as [|i n oss|n oss|i n|]; cbn [flush_fuel].
  - replace (2 * List.length (metrics_ st) + 4)%nat
      with (S ((List.length (metrics_ st) - 0) + List.length (metrics_ st) + 3))
      by lia.
    rewrite flush_steps_S, flush_step_enter. cbn [fst snd].
    now apply render_phase_completes.
  - now apply render_phase_completes.
  - replace (n + 2)%nat with (S ((n - 0) + 1)) by lia.
    rewrite flush_steps_S, flush_step_write. cbn [fst snd].
    now apply reset_phase_completes.
  - now apply reset_phase_completes.
  - reflexivity.
Qed.

(** The scheduler alone can take any number of steps of its cycle; what
    they do to the registry's data is what [flush_steps] computes. *)
Lemma worker_runs_flush_steps (now : time_point) (k : nat) (s : System M)
    (p : flush_pc) :
  worker s = WFlush p ->
  since_epoch_ms now = clock s ->
  exists ls,
    steps s ls
      (with_worker (WFlush (fst (flush_steps Worker now k p (shared s))))
         (with_shared (snd (flush_steps Worker now k p (shared s))) s)) /\
    Forall (fun l => l = LThread Worker) ls.
Proof.
  revert s p. induction k as [|k IH]; intros s p Hp Hnow.
  - exists []. split; [|constructor]. cbn [flush_steps ret fst snd].
    rewrite <- Hp. destruct s. apply steps_refl.
  - destruct (flush_pc_eq_dec p) as [->|Hne].
    + exists []. split; [|constructor]. rewrite flush_steps_done.
      cbn [fst snd]. rewrite <- Hp. destruct s. apply steps_refl.
    + rewrite flush_steps_S.
      set (s1 := with_worker (WFlush (fst (flush_step Worker now p (shared s))))
                   (with_shared (snd (flush_step Worker now p (shared s))) s)).
      destruct (IH s1 (fst (flush_step Worker now p (shared s))) eq_refl Hnow)
        as (ls & Hsteps & Hall).
      exists ([LThread Worker] ++ ls)%list. split.
      * eapply steps_app; [|exact Hsteps].
        apply (steps_snoc s [] s); [apply steps_refl|].
        now apply step_w_flush.
      * constructor; [reflexivity | exact Hall].
Qed.

(** With nobody at a statement under the lock, the mutex is free. *)
Lemma mutex_free (s : System M) :
  mutex_inv s -> (forall t, holds s t = false) -> mutex_ s = None.
Proof.
  intros Hmx Hnone. destruct (mutex_ s) as [t|] eqn:E; [|reflexivity].
  apply Hmx in E. rewrite Hnone in E. discriminate.
Qed.

(** Once the stop is acknowledged, the scheduler and the destructor
    finish in at most four steps of their own, with no passage of
    time. *)
Lemma teardown_completes (s : System M) :
  Inv s -> notified (owner s) = true ->
  exists ls s',
    steps s ls s' /\
    Forall (fun l => l = LThread Worker \/ l = LThread Owner) ls /\
    (List.length ls <= 4)%nat /\ worker s' = WExit /\ owner s' = ODestroyed.
Proof.
  intros (Hmx & Hl & Hs & Hw & Hf & Hj) Hn.
  assert (Hstop : stop_flag_ (shared s) = true).
  { unfold stop_inv in Hs. rewrite Hs. now destruct (owner s). }
  specialize (Hw Hn). specialize (Hf Hstop).
  assert (Widen : forall ls : list label,
             Forall (fun l => l = LThread Worker) ls ->
             Forall (fun l => l = LThread Worker \/ l = LThread Owner) ls).
  { intros ls Hall. eapply Forall_impl; [|exact Hall]. simpl. auto. }
  destruct (owner s) eqn:Eo; try discriminate.
  - (* the destructor still holds the mutex *)
    destruct (worker_exits (with_owner OJoin (with_mutex None s)))
      as (ls & s2 & Hsteps & Hall & Hlen & Hexit & Howner); auto.
    exists ([LThread Owner] ++ ls ++ [LThread Owner])%list.
    eexists. split; [|split; [|split; [|split]]].
    + eapply steps_app.
      * apply (steps_snoc s [] s); [apply steps_refl|].
        apply step_o_unlock. exact Eo.
      * eapply steps_snoc; [exact Hsteps|].
        apply step_o_join; [exact Howner | exact Hexit].
    + apply Forall_app. split; [constructor; [now right | constructor]|].
      apply Forall_app.
      split; [now apply Widen | constructor; [now right | constructor]].
    + rewrite !length_app. simpl. lia.
    + exact Hexit.
    + reflexivity.
  - (* the destructor waits in join *)
    destruct (worker_exits s)
      as (ls & s2 & Hsteps & Hall & Hlen & Hexit & Howner); auto.
    { intros Hwh. apply mutex_free; [exact Hmx|].
      intros [| |k]; simpl.
      - exact Hwh.
      - now rewrite Eo.
      - rewrite Hl; [reflexivity | congruence]. }
    exists (ls ++ [LThread Owner])%list.
    eexists. split; [|split; [|split; [|split]]].
    + eapply steps_snoc; [exact Hsteps|].
      apply step_o_join; [congruence | exact Hexit].
    + apply Forall_app.
      split; [now apply Widen | constructor; [now right | constructor]].
    + rewrite length_app. simpl. lia.
    + exact Hexit.
    + reflexivity.
  - (* the destructor has returned *)
    exists [], s. split; [apply steps_refl|].
    split; [constructor|]. split; [simpl; lia|]. split; [auto | exact Eo].
Qed.

(** The scheduler alone can take a cycle it is in to its end and come
    back to the loop test. *)
Lemma worker_completes_cycle (now : time_point) (s : System M) (p : flush_pc) :
  worker s = WFlush p ->
  since_epoch_ms now = clock s ->
  exists ls,
    steps s ls
      (with_worker WLoop
         (with_shared
            (snd (flush_steps Worker now
                    (flush_fuel p (List.length (metrics_ (shared s)))) p
                    (shared s))) s)) /\
    Forall (fun l => l = LThread Worker) ls.
Proof.
  intros Hp Hnow.
  destruct (worker_runs_flush_steps now
              (flush_fuel p (List.length (metrics_ (shared s)))) s p Hp Hnow)
    as (ls & Hsteps & Hall).
  rewrite flush_completes in Hsteps.
  exists (ls ++ [LThread Worker])%list. split.
  - eapply steps_snoc; [exact Hsteps|].
    apply (step_w_flush_return
             (with_worker (WFlush FDone)
                (with_shared
                   (snd (flush_steps Worker now
                           (flush_fuel p (List.length (metrics_ (shared s))))
                           p (shared s))) s))).
    reflexivity.
  - apply Forall_app. split; [exact Hall | repeat constructor].
Qed.


(** C8 (amended): when the sink cannot be written, [flush_now]
    returns as it does after a write that succeeded, and leaves the
    registry's data as that would, so its caller cannot tell the
    failure; the failure is swallowed for the caller of [flush_now]
    and for the scheduler alike.  The write is attempted, the file is
    left as it was, the metrics are reset all the same, the scheduler
    takes the cycle to its end and is back at its loop test, and the
    next cycle attempts the write again. *)
Theorem failed_write_is_swallowed
    (me : thread) (now : time_point) (s : State M) :
  file s = Unwritable ->
  let r := flush_now me now s in
  (forall data,
      caller_view r =
      caller_view (flush_now me now (set_file (Contents data) s))) /\
  file (snd r) = Unwritable /\
  metrics_ (snd r) = map reset (metrics_ s) /\
  In (me, EvWrite (record now (entries (metrics_ s)))) (calls (snd r)) /\
  (forall sys : System M,
      shared sys = s -> worker sys = WFlush FEnter ->
      since_epoch_ms now = clock sys ->
      exists ls sys',
        steps sys ls sys' /\ Forall (fun l => l = LThread Worker) ls /\
        worker sys' = WLoop /\
        shared sys' = snd (flush_locked Worker now s)) /\
  (forall me' now',
      In (me', EvWrite (record now' (entries (metrics_ (snd r)))))
         (calls (snd (flush_locked me' now' (snd r))))).
Proof.
  intros Hf r. subst r. unfold flush_now. rewrite flush_locked_eq.
  cbn [snd fst file metrics_ calls caller_view set_file stop_flag_].
  rewrite Hf. split; [|split; [|split; [|split; [|split]]]].
  - intros data. rewrite flush_locked_eq. reflexivity.
  - reflexivity.
  - reflexivity.
  - apply in_or_app. right. unfold cycle.
    apply in_or_app. right. now left.
  - intros sys Hsys Hw Hnow.
    destruct (worker_completes_cycle now sys FEnter Hw Hnow)
      as (ls & Hsteps & Hall).
    cbn [flush_fuel] in Hsteps. rewrite flush_steps_flush_locked in Hsteps.
    exists ls. eexists. split; [exact Hsteps|]. split; [exact Hall|].
    split; [reflexivity|]. cbn [snd]. now rewrite Hsys.
  - intros me' now'. rewrite flush_locked_eq. cbn [snd calls metrics_].
    apply in_or_app. right. unfold cycle.
    apply in_or_app. right. now left.
Qed.

End Scheduler.

(** C8 as stated fails: after a flush to a file that cannot be opened,
    the caller of [flush_now] has in hand exactly what it has after a
    flush that succeeded. *)
Lemma failed_write_is_not_surfaced :
  ~ failure_is_surfaced Owner demo_time (demo_state Unwritable).
Proof.
  intros Hs. apply (Hs EmptyString). vm_compute. reflexivity.
Qed.

Lemma failed_write_is_swallowed_witness :
  file (demo_state Unwritable) = Unwritable /\
  file (snd (flush_now Owner demo_time (demo_state Unwritable))) = Unwritable /\
  metrics_ (snd (flush_now Owner demo_time (demo_state Unwritable))) =
  [Counter (CounterMetric.make "C"); Average (AverageMetric.make "A")].
Proof.
  split; [reflexivity|].
  destruct (failed_write_is_swallowed Owner demo_time (demo_state Unwritable)
              eq_refl) as (_ & Hfile & Hmetrics & _).
  split; [exact Hfile|]. rewrite Hmetrics. reflexivity.
Defined.


Lemma reachable_construct (f : File) (period t0 : Z) :
  reachable (construct (M := Metric) f period t0).
Proof. exists f, period, t0, []. apply steps_refl. Qed.



Lemma mid_flush_state_reachable : reachable mid_flush_state.
Proof.
  unfold mid_flush_state. cbv zeta.
  eapply reachable_step;
    [|apply (step_c_flush _ 0 (FRender 0 1 (timestamp epoch)) epoch);
      [reflexivity | discriminate | reflexivity]].
  eapply reachable_step;
    [|apply (step_c_flush _ 0 FEnter epoch);
      [reflexivity | discriminate | reflexivity]].
  eapply reachable_step; [|apply step_c_flush_lock; reflexivity].
  eapply reachable_step; [|apply step_c_flush_now; reflexivity].
  eapply reachable_step; [|apply step_c_push; reflexivity].
  eapply reachable_step; [|apply step_c_register_lock; reflexivity].
  eapply reachable_step; [|apply step_c_register; reflexivity].
  apply reachable_construct.
Qed.

Lemma flush_cycles_are_serialized_witness :
  reachable mid_flush_state /\
  mutex_ mid_flush_state = Some (Client 0) /\
  calls (shared mid_flush_state) = [(Client 0, EvRender 0)].
Proof.
  split; [exact mid_flush_state_reachable|].
  destruct (flush_cycles_are_serialized mid_flush_state
              mid_flush_state_reachable) as (Hholder & _).
  split; [|reflexivity].
  apply Hholder. exists (FRender 1 1 (timestamp epoch ++ field ("C", "0"))).
  reflexivity.
Defined.

(* ================================================================== *)
(** * Further properties of the code *)

(** ** Calls on one counter *)

Lemma tally_step (op : counter_op) (ops : list counter_op) (a : Z) :
  tally (op :: ops) a =
  tally ops (match op with CallIncrement v => a + v | CallReset => 0 end).
Proof. reflexivity. Qed.

(** The tally modulo 2^32 depends on the start only modulo 2^32. *)
Lemma tally_congruent (ops : list counter_op) (a b : Z) :
  Int32.wrap a = Int32.wrap b ->
  Int32.wrap (tally ops a) = Int32.wrap (tally ops b).
Proof.
  revert a b. induction ops as [|op ops IH]; intros a b Hab; [exact Hab|].
  rewrite !tally_step. destruct op as [v|]; [|reflexivity].
  apply IH. now rewrite <- (wrap_add_l a), <- (wrap_add_l b), Hab.
Qed.

Lemma counter_calls_get (ops : list counter_op) (c : CounterMetric.t) :
  Int32.in_range (CounterMetric.get c) ->
  CounterMetric.get (counter_calls c ops) =
  Int32.wrap (tally ops (CounterMetric.get c)).
Proof.
  revert c. induction ops as [|op ops IH]; intros c Hc.
  - symmetry. now apply wrap_small.
  - change (counter_calls c (op :: ops))
      with (counter_calls (counter_call c op) ops).
    rewrite tally_step. destruct op as [v|]; cbn [counter_call].
    + rewrite IH by apply wrap_in_range.
      apply tally_congruent. unfold CounterMetric.increment, CounterMetric.get.
      cbn [CounterMetric.value_]. apply wrap_small, wrap_in_range.
    + rewrite IH; [reflexivity|].
      unfold CounterMetric.reset, CounterMetric.get, Int32.in_range,
        Int32.min_int, Int32.max_int. simpl. lia.
Qed.

Lemma counter_calls_name (ops : list counter_op) (c : CounterMetric.t) :
  CounterMetric.name (counter_calls c ops) = CounterMetric.name c.
Proof.
  revert c. induction ops as [|op ops IH]; intros c; [reflexivity|].
  change (counter_calls c (op :: ops))
    with (counter_calls (counter_call c op) ops).
  rewrite IH. now destruct op.
Qed.

Lemma fresh_in_range (name : string) :
  Int32.in_range (CounterMetric.get (CounterMetric.make name)).
Proof.
  unfold CounterMetric.make, CounterMetric.get, Int32.in_range,
    Int32.min_int, Int32.max_int. simpl. lia.
Qed.

(** X1. After any sequence of increments and resets on a fresh counter,
    [get()] is what an unbounded counter would hold, whenever that
    number fits in 32 bits, even if the value wrapped on the way; and
    the name is the one given at construction. *)
Theorem counter_follows_tally (name : string) (ops : list counter_op) :
  Int32.in_range (tally ops 0) ->
  CounterMetric.get (counter_calls (CounterMetric.make name) ops) =
    tally ops 0 /\
  CounterMetric.name (counter_calls (CounterMetric.make name) ops) = name.
Proof.
  intros Hr. split.
  - rewrite counter_calls_get by apply fresh_in_range.
    now apply wrap_small.
  - apply counter_calls_name.
Qed.

Lemma counter_follows_tally_witness :
  Int32.in_range
    (tally [CallIncrement 2147483647; CallIncrement 1; CallIncrement (-5)] 0) /\
  CounterMetric.get
    (counter_calls (CounterMetric.make "c")
       [CallIncrement 2147483647; CallIncrement 1; CallIncrement (-5)]) =
  2147483643.
Proof.
  assert (Hr : Int32.in_range
                 (tally [CallIncrement 2147483647; CallIncrement 1;
                         CallIncrement (-5)] 0))
    by (vm_compute; split; discriminate).
  split; [exact Hr|].
  apply (proj1 (counter_follows_tally "c" _ Hr)).
Defined.

(** X2. An increment by [v] followed by one by [-v] leaves the value it
    found, also when the first one wraps. *)
Theorem increment_then_decrement (c : CounterMetric.t) (v : Z) :
  Int32.in_range (CounterMetric.get c) ->
  CounterMetric.get
    (CounterMetric.increment (CounterMetric.increment c v) (- v)) =
  CounterMetric.get c.
Proof.
  intros Hc. unfold CounterMetric.increment, CounterMetric.get in *.
  cbn [CounterMetric.value_]. rewrite wrap_add_l.
  replace (CounterMetric.value_ c + v + - v) with (CounterMetric.value_ c) by lia.
  now apply wrap_small.
Qed.

Lemma increment_then_decrement_witness :
  Int32.in_range
    (CounterMetric.get (CounterMetric.increment (CounterMetric.make "c") 2147483647)) /\
  CounterMetric.get
    (CounterMetric.increment
       (CounterMetric.increment
          (CounterMetric.increment (CounterMetric.make "c") 2147483647) 10)
       (- 10)) = 2147483647.
Proof.
  assert (Hr : Int32.in_range
                 (CounterMetric.get
                    (CounterMetric.increment (CounterMetric.make "c") 2147483647)))
    by (vm_compute; split; discriminate).
  split; [exact Hr|].
  etransitivity; [exact (increment_then_decrement _ 10 Hr) | reflexivity].
Defined.

(** X3. Two counters render the same text exactly when they hold the same
    value. *)
Theorem counter_rendering_is_injective (c1 c2 : CounterMetric.t) :
  CounterMetric.value_string c1 = CounterMetric.value_string c2 <->
  CounterMetric.get c1 = CounterMetric.get c2.
Proof.
  unfold CounterMetric.value_string, to_string. split.
  - intros Hs. apply DecimalZ.to_int_inj.
    pose proof (NilEmpty.isi (Z.to_int (CounterMetric.get c1))) as H1.
    pose proof (NilEmpty.isi (Z.to_int (CounterMetric.get c2))) as H2.
    rewrite Hs in H1. congruence.
  - now intros ->.
Qed.

(** ** The characters of a rendered value *)

Lemma all_chars_app (P : ascii -> bool) (s1 s2 : string) :
  all_chars P (s1 ++ s2) = all_chars P s1 && all_chars P s2.
Proof.
  induction s1 as [|c s1 IH]; simpl; [reflexivity|].
  now rewrite IH, andb_assoc.
Qed.

Lemma all_chars_weaken (P Q : ascii -> bool) (s : string) :
  (forall c, P c = true -> Q c = true) ->
  all_chars P s = true -> all_chars Q s = true.
Proof.
  intros HPQ. induction s as [|c s IH]; simpl; [reflexivity|].
  rewrite !andb_true_iff. intros [Hc Hs]. auto.
Qed.

Lemma all_digits_all_chars (s : string) :
  all_digits s = all_chars is_digit s.
Proof. induction s as [|c s IH]; simpl; [reflexivity | now rewrite IH]. Qed.

Lemma all_chars_occurs (P : ascii -> bool) (c : ascii) (s : string) :
  all_chars P s = true -> P c = false -> occurs c s = false.
Proof.
  intros Hs Hc. induction s as [|c' s IH]; simpl; [reflexivity|].
  simpl in Hs. apply andb_true_iff in Hs. destruct Hs as [Hc' Hs].
  rewrite (IH Hs), orb_false_r.
  destruct (Ascii.eqb_spec c c') as [->|]; [congruence | reflexivity].
Qed.

Lemma digit_value_char (c : ascii) : is_digit c = true -> value_char c = true.
Proof. unfold value_char. now intros ->. Qed.

Lemma to_string_value_chars (z : Z) : all_chars value_char (to_string z) = true.
Proof.
  unfold to_string. destruct z as [|p|p]; simpl.
  - reflexivity.
  - apply (all_chars_weaken is_digit); [apply digit_value_char|].
    rewrite <- all_digits_all_chars. apply string_of_uint_digits.
  - apply (all_chars_weaken is_digit); [apply digit_value_char|].
    rewrite <- all_digits_all_chars. apply string_of_uint_digits.
Qed.

Lemma fill_zero_value_chars (k : nat) : all_chars value_char (fill k "0") = true.
Proof. induction k as [|k IH]; simpl; auto. Qed.

Lemma fixed2_value_chars (x : float) : all_chars value_char (fixed2 x) = true.
Proof.
  unfold fixed2. destruct (Prim2SF x) as [s|s| |s m e].
  - now destruct s.
  - now destruct s.
  - reflexivity.
  - rewrite !all_chars_app, to_string_value_chars.
    unfold two_digits, setw_setfill.
    rewrite all_chars_app, fill_zero_value_chars, to_string_value_chars.
    now destruct s.
Qed.

Lemma value_string_value_chars (metric : Metric) :
  all_chars value_char (value_string metric) = true.
Proof.
  destruct metric as [c|a]; simpl.
  - apply to_string_value_chars.
  - apply fixed2_value_chars.
Qed.

(** X7. A rendered value is made of digits, the minus sign, the point and
    the letters of inf and nan: it holds no space, no double quote and
    no newline, the characters that separate the fields of a record. *)
Theorem rendered_value_has_no_separator (metric : Metric) :
  all_chars value_char (value_string metric) = true /\
  occurs " " (value_string metric) = false /\
  occurs dquote_char (value_string metric) = false /\
  occurs newline_char (value_string metric) = false.
Proof.
  pose proof (value_string_value_chars metric) as Hv.
  split; [exact Hv|].
  repeat split; apply (all_chars_occurs value_char); auto.
Qed.

(** ** Counting the quotes of a record *)

Lemma count_char_app (c : ascii) (s1 s2 : string) :
  count_char c (s1 ++ s2) = (count_char c s1 + count_char c s2)%nat.
Proof.
  induction s1 as [|c1 s1 IH]; simpl; [reflexivity|]. rewrite IH. lia.
Qed.

Lemma count_char_absent (c : ascii) (s : string) :
  occurs c s = false -> count_char c s = O.
Proof.
  induction s as [|c' s IH]; simpl; [reflexivity|].
  intros Ho. apply orb_false_iff in Ho. destruct Ho as [Hc Hs].
  rewrite Hc, (IH Hs). reflexivity.
Qed.

Lemma timestamp_value_chars (now : time_point) :
  all_chars (fun c => value_char c || Ascii.eqb c " " || Ascii.eqb c ":")
    (timestamp now) = true.
Proof.
  assert (Hz : forall z, all_chars
                 (fun c => value_char c || Ascii.eqb c " " || Ascii.eqb c ":")
                 (to_string z) = true).
  { intros z. apply (all_chars_weaken value_char);
      [now intros c -> | apply to_string_value_chars]. }
  assert (Hf : forall k z, all_chars
                 (fun c => value_char c || Ascii.eqb c " " || Ascii.eqb c ":")
                 (setw_setfill k "0" (to_string z)) = true).
  { intros k z. unfold setw_setfill. rewrite all_chars_app, Hz, andb_true_r.
    generalize (k - String.length (to_string z))%nat. intros j.
    induction j as [|j IH]; simpl; auto. }
  unfold timestamp, put_time, two_digits.
  rewrite !all_chars_app, !Hf, !Hz. reflexivity.
Qed.

Lemma timestamp_no_quote (now : time_point) :
  occurs dquote_char (timestamp now) = false.
Proof.
  eapply all_chars_occurs; [apply timestamp_value_chars | reflexivity].
Qed.

(** X8. When no name holds a double quote, a record has exactly two double
    quotes per metric: the quotes delimit the names and nothing else. *)
Theorem record_has_two_quotes_per_metric
    (now : time_point) (l : list Metric) :
  forallb (fun metric => negb (occurs dquote_char (name metric))) l = true ->
  count_char dquote_char (record now (entries l)) = (2 * List.length l)%nat.
Proof.
  intros Hl. unfold record. rewrite !count_char_app.
  rewrite (count_char_absent _ _ (timestamp_no_quote now)).
  change (count_char dquote_char newline) with O.
  rewrite Nat.add_0_r. cbn [Nat.add].
  induction l as [|metric l IH]; [reflexivity|].
  cbn [forallb] in Hl. apply andb_true_iff in Hl. destruct Hl as [Hn Hl].
  cbn [entries map]. rewrite concat_cons, count_char_app.
  fold (entries l). rewrite (IH Hl). unfold field. cbn [fst snd].
  rewrite !count_char_app. apply negb_true_iff in Hn.
  rewrite (count_char_absent _ _ Hn).
  rewrite (count_char_absent dquote_char (value_string metric))
    by (apply (all_chars_occurs value_char);
        [apply value_string_value_chars | reflexivity]).
  change (count_char dquote_char " ") with O.
  change (count_char dquote_char dquote) with 1%nat.
  cbn [List.length]. lia.
Qed.

Lemma record_has_two_quotes_per_metric_witness :
  forallb (fun metric => negb (occurs dquote_char (name metric)))
    (metrics_ (demo_state Unwritable)) = true /\
  count_char dquote_char
    (record demo_time (entries (metrics_ (demo_state Unwritable)))) = 4%nat.
Proof.
  split; [reflexivity|].
  exact (record_has_two_quotes_per_metric demo_time
           (metrics_ (demo_state Unwritable)) eq_refl).
Defined.

(** ** What the next record shows *)

(** X11. After a flush cycle, whether its write succeeded or not, every
    metric keeps its name and renders as zero: a cycle that follows
    with no producer call in between writes 0 for every counter and
    0.00 for every average, so what a failed write did not store is
    not stored later either. *)
Theorem next_record_is_all_zero
    (me : thread) (now : time_point) (s : State Metric) :
  entries (metrics_ (snd (flush_locked me now s))) =
  map (fun metric => (name metric, reset_value_string metric)) (metrics_ s).
Proof.
  rewrite flush_locked_eq. cbn [snd metrics_]. unfold entries.
  rewrite map_map. apply map_ext. intros [c|a]; reflexivity.
Qed.

(** ** Calls on one average *)

Lemma fold_left_add_snoc (acc : list float) (v x : float) :
  fold_left PrimFloat.add (acc ++ [v]) x =
  PrimFloat.add (fold_left PrimFloat.add acc x) v.
Proof. now rewrite fold_left_app. Qed.

Lemma samples_since_reset_length (ops : list average_op) (acc : list float) :
  (List.length (samples_since_reset ops acc) <=
   List.length acc + List.length ops)%nat.
Proof.
  revert acc. induction ops as [|op ops IH]; intros acc; simpl; [lia|].
  destruct op as [v|].
  - specialize (IH (acc ++ [v])%list). rewrite length_app in IH. simpl in IH. lia.
  - specialize (IH []). simpl in IH. lia.
Qed.

(** The state after adds and resets, from a state that holds the
    samples [acc]. *)
Lemma average_calls_defined (ops : list average_op) (acc : list float)
    (a : AverageMetric.t) :
  AverageMetric.sum_ a = float_sum acc ->
  AverageMetric.count_ a = Z.of_nat (List.length acc) ->
  Z.of_nat (List.length acc + List.length ops) <= Int32.max_int ->
  average_calls a ops =
  Some {| AverageMetric.name_ := AverageMetric.name_ a;
          AverageMetric.sum_ := float_sum (samples_since_reset ops acc);
          AverageMetric.count_ :=
            Z.of_nat (List.length (samples_since_reset ops acc)) |}.
Proof.
  revert acc a. induction ops as [|op ops IH]; intros acc a Hs Hc Hmax.
  - cbn [average_calls samples_since_reset]. rewrite <- Hs, <- Hc.
    now destruct a.
  - destruct op as [v|]; cbn [average_calls samples_since_reset].
    + unfold AverageMetric.add.
      assert (Hr : Int32.in_rangeb (AverageMetric.count_ a + 1) = true).
      { apply in_rangeb_spec. unfold Int32.in_range, Int32.min_int.
        cbn [List.length] in Hmax. lia. }
      rewrite Hr. rewrite (IH (acc ++ [v])%list).
      * reflexivity.
      * cbn [AverageMetric.sum_]. unfold float_sum.
        rewrite fold_left_add_snoc. fold (float_sum acc). now rewrite Hs.
      * cbn [AverageMetric.count_]. rewrite length_app. simpl. lia.
      * rewrite length_app. cbn [List.length] in *. lia.
    + rewrite (IH []).
      * reflexivity.
      * reflexivity.
      * reflexivity.
      * cbn [List.length] in *. lia.
Qed.

(** X5. After fewer than 2^31 adds and resets on a fresh average, in any
    order, the average holds exactly the samples added since the last
    reset: its mean is their running double sum divided by their
    number, 0.0 when there are none, and its name is unchanged. *)
Theorem average_holds_samples_since_reset
    (name : string) (ops : list average_op) :
  Z.of_nat (List.length ops) <= Int32.max_int ->
  exists a,
    average_calls (AverageMetric.make name) ops = Some a /\
    AverageMetric.name a = name /\
    AverageMetric.count_ a =
      Z.of_nat (List.length (samples_since_reset ops [])) /\
    AverageMetric.get_average a =
      (if (List.length (samples_since_reset ops []) =? 0)%nat then 0%float
       else (float_sum (samples_since_reset ops []) /
             double_of_int
               (Z.of_nat (List.length (samples_since_reset ops []))))%float).
Proof.
  intros Hlen. eexists. split; [|split; [|split]].
  - apply (average_calls_defined ops []); [reflexivity | reflexivity |].
    exact Hlen.
  - reflexivity.
  - reflexivity.
  - unfold AverageMetric.get_average.
    cbn [AverageMetric.count_ AverageMetric.sum_].
    destruct (samples_since_reset ops []) as [|v vs]; [reflexivity|].
    cbn [List.length Nat.eqb].
    destruct (Z.eqb_spec (Z.of_nat (S (List.length vs))) 0) as [E|_]; [lia|].
    reflexivity.
Qed.

Lemma average_holds_samples_since_reset_witness :
  Z.of_nat (List.length [CallAdd 9; CallResetAverage; CallAdd 2; CallAdd 4])
    <= Int32.max_int /\
  exists a,
    average_calls (AverageMetric.make "A")
      [CallAdd 9; CallResetAverage; CallAdd 2; CallAdd 4] = Some a /\
    AverageMetric.get_average a = 3%float.
Proof.
  assert (Hlen : Z.of_nat (List.length [CallAdd 9; CallResetAverage;
                                         CallAdd 2; CallAdd 4])
                 <= Int32.max_int) by (vm_compute; discriminate).
  split; [exact Hlen|].
  destruct (average_holds_samples_since_reset "A" _ Hlen)
    as (a & Ha & _ & _ & Hm).
  exists a. split; [exact Ha|]. rewrite Hm. reflexivity.
Defined.

(** X6. [count_] is a plain [int]: once it has reached [INT_MAX] the
    next [add] overflows it, which is undefined; so every run of adds
    that would take the count past [INT_MAX] is undefined, whatever the
    samples. *)
Theorem add_past_int_max_is_undefined
    (a : AverageMetric.t) (v : float) (vs : list float) :
  0 <= AverageMetric.count_ a <= Int32.max_int ->
  Int32.max_int < AverageMetric.count_ a + Z.of_nat (List.length vs) ->
  adds a vs = None /\
  (AverageMetric.count_ a = Int32.max_int -> AverageMetric.add a v = None).
Proof.
  intros Hc Hmax. split; [now apply adds_undefined|].
  intros E. unfold AverageMetric.add.
  destruct (Int32.in_rangeb (AverageMetric.count_ a + 1)) eqn:Hr;
    [|reflexivity].
  apply in_rangeb_spec in Hr. unfold Int32.in_range in Hr. lia.
Qed.

Lemma add_past_int_max_is_undefined_witness :
  0 <= AverageMetric.count_ (AverageMetric.mk "A" 0 2147483647)
    <= Int32.max_int /\
  adds (AverageMetric.mk "A" 0 2147483647) [1%float] = None.
Proof.
  assert (H0 : 0 <= AverageMetric.count_ (AverageMetric.mk "A" 0 2147483647)
               <= Int32.max_int) by (vm_compute; split; discriminate).
  split; [exact H0|].
  assert (Hlt : Int32.max_int <
                AverageMetric.count_ (AverageMetric.mk "A" 0 2147483647) +
                Z.of_nat (List.length [1%float]))
    by (vm_compute; reflexivity).
  exact (proj1 (add_past_int_max_is_undefined _ 1%float [1%float] H0 Hlt)).
Defined.

(** ** Registration *)

Section Registration.

Context {M : Type} `{IMetric M}.

Lemma nth_error_app_old (l1 l2 : list M) (i : nat) (x : M) :
  nth_error l1 i = Some x -> nth_error (l1 ++ l2) i = Some x.
Proof.
  intros Hi. rewrite nth_error_app1; [exact Hi|].
  apply nth_error_Some. congruence.
Qed.

(** X9. [register_metric] returns a handle at which the new metric is
    found, makes the vector one longer, leaves every metric registered
    before at its handle, and touches neither the file nor the stop
    flag. *)
Theorem register_metric_keeps_handles (metric : M) (s : State M) :
  nth_error (metrics_ (snd (register_metric metric s)))
    (fst (register_metric metric s)) = Some metric /\
  List.length (metrics_ (snd (register_metric metric s))) =
    S (List.length (metrics_ s)) /\
  (forall i x, nth_error (metrics_ s) i = Some x ->
               nth_error (metrics_ (snd (register_metric metric s))) i = Some x) /\
  file (snd (register_metric metric s)) = file s /\
  stop_flag_ (snd (register_metric metric s)) = stop_flag_ s /\
  calls (snd (register_metric metric s)) = calls s.
Proof.
  unfold register_metric. cbn [fst snd set_metrics metrics_ file stop_flag_ calls].
  split; [|split; [|split; [|repeat split]]].
  - exact (nth_error_middle (metrics_ s) [] metric).
  - rewrite length_app. simpl. lia.
  - intros i x Hi. now apply nth_error_app_old.
Qed.

Lemma registers_eq (ms : list M) (s : State M) :
  registers ms s =
  (seq (List.length (metrics_ s)) (List.length ms),
   set_metrics (metrics_ s ++ ms)%list s).
Proof.
  revert s. induction ms as [|metric ms IH]; intros s.
  - cbn [registers List.length seq]. unfold ret. f_equal.
    apply State_eq; simpl; auto using app_nil_r.
  - cbn [registers]. unfold bind at 1. unfold register_metric at 1.
    unfold bind at 1. rewrite IH. unfold ret.
    cbn [set_metrics metrics_ List.length seq]. f_equal.
    + f_equal. rewrite length_app. simpl. f_equal. lia.
    + apply State_eq; simpl; auto. now rewrite <- app_assoc.
Qed.

(** X10. Registrations followed by a flush: the handles are consecutive
    positions, and the record has the fields of the metrics that were
    there followed by one field for every registration, in the order
    of the calls; metrics of the same name each get their field, no
    registration is merged or dropped. *)
Theorem registrations_then_flush
    (me : thread) (now : time_point) (ms : list M) (s : State M) :
  fst (registers ms s) = seq (List.length (metrics_ s)) (List.length ms) /\
  file (snd (flush_locked me now (snd (registers ms s)))) =
    ofstream_append (file s)
      (record now (entries (metrics_ s) ++ entries ms)%list) /\
  List.length (entries (metrics_ s) ++ entries ms)%list =
    (List.length (metrics_ s) + List.length ms)%nat /\
  map fst (entries (metrics_ s) ++ entries ms)%list =
    (map name (metrics_ s) ++ map name ms)%list.
Proof.
  rewrite registers_eq. cbn [fst snd]. rewrite flush_locked_eq.
  cbn [snd file set_metrics metrics_]. unfold entries.
  rewrite map_app. split; [reflexivity|]. split; [reflexivity|]. split.
  - now rewrite length_app, !length_map.
  - rewrite map_app, !map_map. reflexivity.
Qed.

Lemma update_update (l : list M) (i : nat) (x y : M) :
  update (update l i x) i y = update l i y.
Proof.
  revert i. induction l as [|h l IH]; intros [|i]; simpl; auto.
  now rewrite IH.
Qed.

Lemma nth_error_update (l : list M) (i : nat) (x y : M) :
  nth_error l i = Some x -> nth_error (update l i y) i = Some y.
Proof.
  revert i. induction l as [|h l IH]; intros [|i]; simpl; try discriminate;
    auto.
Qed.

(** X12. A producer's call that lands on a metric after the cycle has
    rendered it and before the cycle resets it is lost: if the call
    leaves no trace across a reset, the reset leaves the registry
    exactly as if the call had not been made. *)
Theorem call_before_reset_is_lost
    (me : thread) (i : nat) (f : M -> M) (s : State M) (metric : M) :
  nth_error (metrics_ s) i = Some metric ->
  reset (f metric) = reset metric ->
  snd (reset_metric me i (produce i f s)) = snd (reset_metric me i s).
Proof.
  intros Hi Hf. unfold produce. rewrite Hi. unfold reset_metric.
  cbn [set_metrics metrics_]. rewrite (nth_error_update _ _ _ _ Hi), Hi.
  cbn [snd]. apply State_eq; simpl; auto.
  now rewrite update_update, Hf.
Qed.

End Registration.

Lemma call_before_reset_is_lost_witness :
  nth_error (metrics_ (demo_state Unwritable)) 0 =
    Some (Counter (increments (CounterMetric.make "C") [5])) /\
  snd (reset_metric Worker 0
         (produce 0 (fun metric =>
                       match metric with
                       | Counter c => Counter (CounterMetric.increment c 7)
                       | Average a => Average a
                       end) (demo_state Unwritable))) =
  snd (reset_metric Worker 0 (demo_state Unwritable)).
Proof.
  split; [reflexivity|].
  apply (call_before_reset_is_lost Worker 0 _ (demo_state Unwritable)
           (Counter (increments (CounterMetric.make "C") [5])));
    reflexivity.
Defined.

(** ** Increments of bounded size *)

Lemma tally_bounds (ops : list counter_op) (a b : Z) :
  0 <= b ->
  (forall v, In (CallIncrement v) ops -> 0 <= v <= b) ->
  0 <= a ->
  0 <= tally ops a <=
  a + Z.of_nat (List.length (filter is_increment ops)) * b.
Proof.
  intros Hb. revert a. induction ops as [|op ops IH]; intros a Hops Ha.
  - cbn. lia.
  - rewrite tally_step. destruct op as [v|]; cbn [filter is_increment List.length].
    + assert (Hv : 0 <= v <= b) by (apply Hops; now left).
      specialize (IH (a + v) (fun w Hw => Hops w (or_intror Hw)) ltac:(lia)).
      nia.
    + specialize (IH 0 (fun w Hw => Hops w (or_intror Hw)) ltac:(lia)).
      nia.
Qed.

(** X4. A counter that receives at most [k] increments, each between 0
    and [b], with resets anywhere between them, never wraps when
    [k * b] fits in 32 bits: [get()] is the exact total since the last
    reset and lies between 0 and [k * b].  The HTTP thread of [main]
    makes 10 increments of at most 100 each. *)
Theorem bounded_increments_never_wrap
    (name : string) (ops : list counter_op) (b k : Z) :
  0 <= b ->
  (forall v, In (CallIncrement v) ops -> 0 <= v <= b) ->
  Z.of_nat (List.length (filter is_increment ops)) <= k ->
  k * b <= Int32.max_int ->
  CounterMetric.get (counter_calls (CounterMetric.make name) ops) =
    tally ops 0 /\
  0 <= CounterMetric.get (counter_calls (CounterMetric.make name) ops) <= k * b.
Proof.
  intros Hb Hops Hk Hmax.
  pose proof (tally_bounds ops 0 b Hb Hops ltac:(lia)) as Ht.
  assert (Hr : Int32.in_range (tally ops 0)).
  { unfold Int32.in_range, Int32.min_int. nia. }
  rewrite counter_calls_get by apply fresh_in_range.
  change (CounterMetric.get (CounterMetric.make name)) with 0.
  rewrite (wrap_small _ Hr). split; [reflexivity | nia].
Qed.

Lemma bounded_increments_never_wrap_witness :
  0 <= 100 /\
  Z.of_nat (List.length
              (filter is_increment
                 [CallIncrement 100; CallIncrement 37; CallReset;
                  CallIncrement 0; CallIncrement 99])) <= 10 /\
  10 * 100 <= Int32.max_int /\
  CounterMetric.get
    (counter_calls (CounterMetric.make "HTTP requests RPS")
       [CallIncrement 100; CallIncrement 37; CallReset;
        CallIncrement 0; CallIncrement 99]) = 99.
Proof.
  assert (H0 : 0 <= 100) by lia.
  assert (Hk : Z.of_nat (List.length
                 (filter is_increment
                    [CallIncrement 100; CallIncrement 37; CallReset;
                     CallIncrement 0; CallIncrement 99])) <= 10)
    by (vm_compute; discriminate).
  assert (Hm : 10 * 100 <= Int32.max_int) by (vm_compute; discriminate).
  split; [exact H0|]. split; [exact Hk|]. split; [exact Hm|].
  assert (Hops : forall v,
             In (CallIncrement v)
               [CallIncrement 100; CallIncrement 37; CallReset;
                CallIncrement 0; CallIncrement 99] -> 0 <= v <= 100).
  { intros v [E|[E|[E|[E|[E|[]]]]]]; try discriminate; injection E as <-; lia. }
  destruct (bounded_increments_never_wrap "HTTP requests RPS" _ 100 10
              H0 Hops Hk Hm) as [Hget _].
  rewrite Hget. reflexivity.
Defined.

(** ** More on the scheduler *)

Section SchedulerMore.
Context {M : Type} `{IMetric M}.

(** *** What no execution undoes *)

(** [f'] holds what [f] held, and possibly more after it. *)
Lemma ofstream_append_extends (f : File) (text old : string) :
  f = Contents old ->
  exists suffix, ofstream_append f text = Contents (old ++ suffix).
Proof. intros ->. exists text. reflexivity. Qed.

Lemma keeps_contents (f : File) (old : string) :
  f = Contents old -> exists suffix, f = Contents (old ++ suffix).
Proof. intros ->. exists EmptyString. now rewrite string_app_nil_r. Qed.

Lemma render_metric_file (me : thread) (i : nat) (oss : string) (st : State M) :
  file (snd (render_metric me i oss st)) = file st.
Proof. unfold render_metric. now destruct (nth_error (metrics_ st) i). Qed.

Lemma reset_metric_file (me : thread) (i : nat) (st : State M) :
  file (snd (reset_metric me i st)) = file st.
Proof. unfold reset_metric. now destruct (nth_error (metrics_ st) i). Qed.

Lemma flush_step_file (me : thread) (now : time_point) (p : flush_pc)
    (st : State M) (old : string) :
  file st = Contents old ->
  exists suffix, file (snd (flush_step me now p st)) = Contents (old ++ suffix).
Proof.
  intros Hf. destruct p as [|i n oss|n oss|i n|]; cbn [flush_step].
  - now apply keeps_contents.
  - destruct (i <? n)%nat; [|now apply keeps_contents].
    unfold bind, ret. pose proof (render_metric_file me i oss st) as E.
    destruct (render_metric me i oss st). cbn [snd] in *.
    apply keeps_contents. congruence.
  - unfold bind, ret, write_file. cbn [snd record_call set_file file].
    now apply ofstream_append_extends.
  - destruct (i <? n)%nat; [|now apply keeps_contents].
    unfold bind, ret. pose proof (reset_metric_file me i st) as E.
    destruct (reset_metric me i st). cbn [snd] in *.
    apply keeps_contents. congruence.
  - now apply keeps_contents.
Qed.

Lemma step_file (s s' : System M) (l : label) (old : string) :
  step s l s' -> file (shared s) = Contents old ->
  exists suffix, file (shared s') = Contents (old ++ suffix).
Proof.
  intros Hstep Hf.
  destruct Hstep; simpl; try (now apply keeps_contents);
    now apply flush_step_file.
Qed.

(** X13. The sink is append-only in every execution: whatever the threads
    do, what the file held stays at its beginning, unchanged. *)
Theorem sink_is_append_only (s s' : System M) (ls : list label) (old : string) :
  steps s ls s' -> file (shared s) = Contents old ->
  exists suffix, file (shared s') = Contents (old ++ suffix).
Proof.
  intros Hs. revert old. induction Hs as [|s ls s' l s'' Hs IH Hstep];
    intros old Hf.
  - now apply keeps_contents.
  - destruct (IH old Hf) as [suffix1 H1].
    destruct (step_file s' s'' l _ Hstep H1) as [suffix2 H2].
    exists (suffix1 ++ suffix2). now rewrite <- string_app_assoc.
Qed.

Lemma render_metric_length (me : thread) (i : nat) (oss : string) (st : State M) :
  metrics_ (snd (render_metric me i oss st)) = metrics_ st.
Proof. unfold render_metric. now destruct (nth_error (metrics_ st) i). Qed.

Lemma reset_metric_length (me : thread) (i : nat) (st : State M) :
  List.length (metrics_ (snd (reset_metric me i st))) =
  List.length (metrics_ st).
Proof.
  unfold reset_metric. destruct (nth_error (metrics_ st) i); [|reflexivity].
  simpl. apply update_length.
Qed.

Lemma flush_step_length (me : thread) (now : time_point) (p : flush_pc)
    (st : State M) :
  List.length (metrics_ (snd (flush_step me now p st))) =
  List.length (metrics_ st).
Proof.
  destruct p as [|i n oss|n oss|i n|]; cbn [flush_step]; try reflexivity.
  - destruct (i <? n)%nat; [|reflexivity].
    unfold bind, ret. pose proof (render_metric_length me i oss st) as E.
    destruct (render_metric me i oss st). cbn [snd] in *. now rewrite E.
  - destruct (i <? n)%nat; [|reflexivity].
    unfold bind, ret. pose proof (reset_metric_length me i st) as E.
    destruct (reset_metric me i st). cbn [snd] in *. exact E.
Qed.

Lemma step_length (s s' : System M) (l : label) :
  step s l s' ->
  (List.length (metrics_ (shared s)) <= List.length (metrics_ (shared s')))%nat.
Proof.
  intros Hstep. destruct Hstep; simpl;
    rewrite ?update_length, ?flush_step_length, ?length_app; lia.
Qed.

(** X14. Nothing is ever unregistered: in every execution the vector of
    metrics only grows, so a handle that was valid stays valid. *)
Theorem registry_never_shrinks (s s' : System M) (ls : list label) :
  steps s ls s' ->
  (List.length (metrics_ (shared s)) <= List.length (metrics_ (shared s')))%nat /\
  (forall i, nth_error (metrics_ (shared s)) i <> None ->
             nth_error (metrics_ (shared s')) i <> None).
Proof.
  intros Hs.
  assert (Hlen : (List.length (metrics_ (shared s)) <=
                  List.length (metrics_ (shared s')))%nat).
  { induction Hs as [|s ls s' l s'' Hs IH Hstep]; [lia|].
    pose proof (step_length s' s'' l Hstep). lia. }
  split; [exact Hlen|].
  intros i Hi. apply nth_error_Some. apply nth_error_Some in Hi. lia.
Qed.

Lemma step_final (s s' : System M) (l : label) :
  step s l s' ->
  (stop_flag_ (shared s) = true -> stop_flag_ (shared s') = true) /\
  (worker s = WExit -> worker s' = WExit) /\
  (owner s = ODestroyed -> owner s' = ODestroyed).
Proof.
  intros Hstep.
  destruct Hstep; simpl; rewrite ?flush_step_stop_flag;
    repeat split; auto; try congruence.
  intros E. rewrite E. reflexivity.
Qed.

(** X15. Shutdown is final: in every execution the stop flag, once set, is
    never cleared; the scheduler thread, once ended, never runs again;
    and a destroyed registry stays destroyed. *)
Theorem shutdown_is_final (s s' : System M) (ls : list label) :
  steps s ls s' ->
  (stop_flag_ (shared s) = true -> stop_flag_ (shared s') = true) /\
  (worker s = WExit -> worker s' = WExit) /\
  (owner s = ODestroyed -> owner s' = ODestroyed).
Proof.
  intros Hs. induction Hs as [|s ls s' l s'' Hs IH Hstep]; [auto|].
  destruct IH as (I1 & I2 & I3).
  destruct (step_final s' s'' l Hstep) as (F1 & F2 & F3). auto.
Qed.


(** *** Under the lock *)

(** X16. A thread that holds the mutex is never blocked: nothing it does
    under the lock waits for another thread (the wait releases the
    lock, the join comes after the unlock), so in every reachable state
    the holder can take its next step. *)
Theorem lock_holder_can_step (s : System M) (t : thread) :
  reachable s -> mutex_ s = Some t -> exists s', step s (LThread t) s'.
Proof.
  intros Hr Hm. pose proof (reachable_Inv s Hr) as (Hmx & _).
  apply Hmx in Hm. destruct t as [| |k]; simpl in Hm.
  - destruct (worker s) eqn:E; try discriminate.
    + destruct (stop_flag_ (shared s)) eqn:Ef.
      * eexists. now apply step_w_loop_exit.
      * eexists. now apply step_w_wait.
    + destruct (stop_flag_ (shared s)) eqn:Ef.
      * eexists. now apply step_w_break.
      * eexists. now apply step_w_call_flush.
    + destruct (flush_pc_eq_dec p) as [->|Hne].
      * eexists. now apply step_w_flush_return.
      * eexists.
        apply (step_w_flush s p {| localtime := mk_tm 0 0 0 0 0 0;
                                   since_epoch_ms := clock s |});
          [exact E | exact Hne | reflexivity].
  - destruct (owner s) eqn:E; try discriminate.
    + eexists. now apply step_o_set_stop.
    + eexists. now apply step_o_notify.
    + eexists. now apply step_o_unlock.
  - destruct (clients s k) eqn:E; try discriminate.
    + destruct (flush_pc_eq_dec p) as [->|Hne].
      * eexists. now apply step_c_flush_return.
      * eexists.
        apply (step_c_flush s k p {| localtime := mk_tm 0 0 0 0 0 0;
                                     since_epoch_ms := clock s |});
          [exact E | exact Hne | reflexivity].
    + eexists. eapply step_c_push. exact E.
Qed.

Lemma progress_indices (t : thread) (p : flush_pc) (n : nat)
    (evs : list (thread * Event)) :
  progress t p n evs -> indices_in_range p n.
Proof.
  destruct p as [|i m oss|m oss|i m|]; cbn [progress indices_in_range].
  - intros _. exact I.
  - intros (Hm & Hi & _). subst. auto.
  - intros (Hm & _). exact Hm.
  - intros (Hm & Hi & _). subst. auto.
  - intros _. exact I.
Qed.

(** X17. The vector is not resized under a cycle: in every reachable state,
    the bound a thread inside [flush_locked] iterates to is the current
    size of the vector and its index is within it, so the loops never
    touch an element that is not there. *)
Theorem cycle_indices_stay_in_range (s : System M) (t : thread) (p : flush_pc) :
  reachable s -> flush_pc_of s t = Some p ->
  indices_in_range p (List.length (metrics_ (shared s))).
Proof.
  intros Hr Hp. pose proof (reachable_Inv s Hr) as (Hmx & _).
  destruct (reachable_log_inv s Hr) as (done & partial & _ & _ & Hl).
  assert (Hin : in_flush s t) by (apply in_flush_pc; eauto).
  apply in_flush_holds in Hin. apply Hmx in Hin.
  rewrite Hin, Hp in Hl. eapply progress_indices; eauto.
Qed.

(** A client alone can take any number of steps of its cycle. *)
Lemma client_runs_flush_steps (now : time_point) (k : nat) (fuel : nat)
    (s : System M) (p : flush_pc) :
  clients s k = CFlush p ->
  since_epoch_ms now = clock s ->
  exists ls s',
    steps s ls s' /\
    Forall (fun l => l = LThread (Client k)) ls /\
    clients s' k = CFlush (fst (flush_steps (Client k) now fuel p (shared s))) /\
    shared s' = snd (flush_steps (Client k) now fuel p (shared s)) /\
    mutex_ s' = mutex_ s /\ worker s' = worker s /\ owner s' = owner s /\
    clock s' = clock s /\
    (forall j, j <> k -> clients s' j = clients s j).
Proof.
  revert s p. induction fuel as [|fuel IH]; intros s p Hp Hnow.
  - exists [], s. cbn [flush_steps ret fst snd].
    repeat split; auto using steps_refl.
  - destruct (flush_pc_eq_dec p) as [->|Hne].
    + exists [], s. rewrite flush_steps_done. cbn [fst snd].
      repeat split; auto using steps_refl.
    + rewrite flush_steps_S.
      set (s1 := with_client k
                   (CFlush (fst (flush_step (Client k) now p (shared s))))
                   (with_shared (snd (flush_step (Client k) now p (shared s)))
                      s)).
      assert (H1 : clients s1 k =
                   CFlush (fst (flush_step (Client k) now p (shared s)))).
      { simpl. now rewrite Nat.eqb_refl. }
      destruct (IH s1 _ H1 Hnow)
        as (ls & s' & Hsteps & Hall & Hc & Hsh & Hm & Hw & Ho & Hcl & Hj).
      exists ([LThread (Client k)] ++ ls)%list, s'.
      split; [|split; [|split; [|split; [|split; [|split; [|split; [|split]]]]]]];
        auto.
      * eapply steps_app; [|exact Hsteps].
        apply (steps_snoc s [] s); [apply steps_refl|].
        now apply step_c_flush.
      * constructor; [reflexivity | exact Hall].
      * intros j Hjk. rewrite (Hj j Hjk). simpl.
        destruct (Nat.eqb_spec j k); [contradiction | reflexivity].
Qed.

(** X18. [flush_now] by a client that finds the mutex free: by its own
    steps it takes the lock, runs exactly one cycle, whose effect on
    the registry's data and the file is that of [flush_locked], and
    gives the lock back; no other thread has moved. *)
Theorem flush_now_runs_one_cycle (now : time_point) (k : nat) (s : System M) :
  clients s k = CFlushNow -> mutex_ s = None ->
  since_epoch_ms now = clock s ->
  exists ls s',
    steps s ls s' /\
    Forall (fun l => l = LThread (Client k)) ls /\
    clients s' k = CIdle /\ mutex_ s' = None /\
    shared s' = snd (flush_now (Client k) now (shared s)) /\
    worker s' = worker s /\ owner s' = owner s /\
    (forall j, j <> k -> clients s' j = clients s j).
Proof.
  intros Hc Hm Hnow.
  set (s1 := with_client k (CFlush FEnter) (with_mutex (Some (Client k)) s)).
  assert (H1 : clients s1 k = CFlush FEnter).
  { simpl. now rewrite Nat.eqb_refl. }
  destruct (client_runs_flush_steps now k
              (2 * List.length (metrics_ (shared s1)) + 4) s1 FEnter H1 Hnow)
    as (ls & s2 & Hsteps & Hall & Hc2 & Hsh & Hm2 & Hw & Ho & Hcl & Hj).
  rewrite flush_steps_flush_locked in Hc2, Hsh. cbn [fst snd] in Hc2, Hsh.
  exists ([LThread (Client k)] ++ ls ++ [LThread (Client k)])%list.
  exists (with_client k CIdle (with_mutex None s2)).
  split; [|split; [|split; [|split; [|split; [|split; [|split]]]]]].
  - eapply steps_app.
    + apply (steps_snoc s [] s); [apply steps_refl|].
      now apply step_c_flush_lock.
    + eapply steps_snoc; [exact Hsteps|]. now apply step_c_flush_return.
  - constructor; [reflexivity|]. apply Forall_app.
    split; [exact Hall | repeat constructor].
  - simpl. now rewrite Nat.eqb_refl.
  - reflexivity.
  - simpl. rewrite Hsh. reflexivity.
  - simpl. rewrite Hw. reflexivity.
  - simpl. rewrite Ho. reflexivity.
  - intros j Hjk. simpl. destruct (Nat.eqb_spec j k); [contradiction|].
    rewrite (Hj j Hjk). simpl.
    destruct (Nat.eqb_spec j k); [contradiction | reflexivity].
Qed.


(** *** Destruction *)

Lemma flush_steps_stop_flag (me : thread) (now : time_point) (fuel : nat)
    (p : flush_pc) (st : State M) :
  stop_flag_ (snd (flush_steps me now fuel p st)) = stop_flag_ st.
Proof.
  revert p st. induction fuel as [|fuel IH]; intros p st; [reflexivity|].
  rewrite flush_steps_S, IH. apply flush_step_stop_flag.
Qed.

Lemma steps_one (s s' : System M) (l : label) :
  step s l s' -> steps s [l] s'.
Proof.
  intros Hstep. apply (steps_snoc s [] s); [apply steps_refl | exact Hstep].
Qed.

(** While the destructor waits for the mutex, the scheduler by its own
    steps comes to the point where it gives the mutex up. *)
Lemma worker_releases (s : System M) :
  Inv s -> owner s = OLock ->
  exists ls s1,
    steps s ls s1 /\ Forall (fun l => l = LThread Worker) ls /\
    owner s1 = OLock /\ mutex_ s1 = None.
Proof.
  intros (Hmx & Hl & Hs & Hw & Hf & Hj) Ho.
  assert (Hstop : stop_flag_ (shared s) = false).
  { unfold stop_inv in Hs. now rewrite Ho in Hs. }
  assert (Hfree : worker_holds (worker s) = false -> mutex_ s = None).
  { intros Hwh. apply mutex_free; [exact Hmx|]. intros [| |k]; simpl.
    - exact Hwh.
    - now rewrite Ho.
    - rewrite Hl; [reflexivity | congruence]. }
  assert (Wait : forall s0 : System M,
             worker s0 = WLoop -> stop_flag_ (shared s0) = false ->
             owner s0 = OLock ->
             exists s1, step s0 (LThread Worker) s1 /\
                        owner s1 = OLock /\ mutex_ s1 = None).
  { intros s0 E0 F0 O0. eexists. split; [now apply step_w_wait|].
    split; [exact O0 | reflexivity]. }
  assert (Cycle : forall (s0 : System M) p,
             worker s0 = WFlush p -> stop_flag_ (shared s0) = false ->
             owner s0 = OLock ->
             exists ls s1,
               steps s0 ls s1 /\ Forall (fun l => l = LThread Worker) ls /\
               owner s1 = OLock /\ mutex_ s1 = None).
  { intros s0 p E0 F0 O0.
    destruct (worker_completes_cycle
                {| localtime := mk_tm 0 0 0 0 0 0; since_epoch_ms := clock s0 |}
                s0 p E0 eq_refl) as (ls & Hsteps & Hall).
    match type of Hsteps with
    | steps _ _ ?s2 =>
        destruct (Wait s2 eq_refl) as (s1 & Hstep & Ho1 & Hm1);
        [simpl; now rewrite flush_steps_stop_flag | exact O0 |]
    end.
    exists (ls ++ [LThread Worker])%list, s1.
    split; [eapply steps_snoc; eauto|].
    split; [apply Forall_app; split; [exact Hall | repeat constructor]|].
    auto. }
  destruct (worker s) eqn:E.
  - exists [], s. repeat split; auto using steps_refl.
  - destruct (Wait s E Hstop Ho) as (s1 & Hstep & Ho1 & Hm1).
    exists [LThread Worker], s1.
    split; [now apply steps_one|]. split; [repeat constructor | auto].
  - exists [], s. repeat split; auto using steps_refl.
  - exists [], s. repeat split; auto using steps_refl.
  - destruct (Cycle (with_worker (WFlush FEnter) s) FEnter eq_refl Hstop Ho)
      as (ls & s1 & Hsteps & Hall & Ho1 & Hm1).
    exists ([LThread Worker] ++ ls)%list, s1.
    split; [|split; [constructor; auto|auto]].
    eapply steps_app; [|exact Hsteps].
    apply steps_one. now apply step_w_call_flush.
  - destruct (Cycle s p E Hstop Ho) as (ls & s1 & Hsteps & Hall & Ho1 & Hm1).
    exists ls, s1. auto.
  - exists [], s. repeat split; auto using steps_refl.
Qed.

Lemma Forall_worker_widen (ls : list label) :
  Forall (fun l => l = LThread Worker) ls ->
  Forall (fun l => l = LThread Worker \/ l = LThread Owner) ls.
Proof. intros Hall. eapply Forall_impl; [|exact Hall]. simpl. auto. Qed.

(** X19. A destructor that has started can always finish: from every
    reachable state in which it has been entered, also while a flush
    cycle is in flight, the scheduler and the destructor by steps of
    their own, with no passage of time, come to the state where the
    scheduler thread has ended and the destructor has returned. *)
Theorem destruction_can_complete (s : System M) :
  reachable s -> owner s <> OAlive ->
  exists ls s',
    steps s ls s' /\
    Forall (fun l => l = LThread Worker \/ l = LThread Owner) ls /\
    worker s' = WExit /\ owner s' = ODestroyed.
Proof.
  intros Hr Ho. pose proof (reachable_Inv s Hr) as Hi.
  assert (Finish : forall (s0 : System M) (l0 : list label),
             steps s l0 s0 ->
             Forall (fun l => l = LThread Worker \/ l = LThread Owner) l0 ->
             notified (owner s0) = true ->
             exists ls s',
               steps s ls s' /\
               Forall (fun l => l = LThread Worker \/ l = LThread Owner) ls /\
               worker s' = WExit /\ owner s' = ODestroyed).
  { intros s0 l0 Hsteps Hall Hn.
    destruct (teardown_completes s0 (Inv_steps s s0 l0 Hi Hsteps) Hn)
      as (ls & s' & Hs' & Hall' & _ & Hw & Hown).
    exists (l0 ++ ls)%list, s'. split; [eapply steps_app; eauto|].
    split; [apply Forall_app; auto | auto]. }
  assert (FromLocked : forall (s0 : System M) (l0 : list label),
             steps s l0 s0 ->
             Forall (fun l => l = LThread Worker \/ l = LThread Owner) l0 ->
             owner s0 = OLocked ->
             exists ls s',
               steps s ls s' /\
               Forall (fun l => l = LThread Worker \/ l = LThread Owner) ls /\
               worker s' = WExit /\ owner s' = ODestroyed).
  { intros s0 l0 Hsteps Hall Ho0.
    eapply (Finish _ ((l0 ++ [LThread Owner]) ++ [LThread Owner])%list).
    - eapply steps_snoc.
      + eapply steps_snoc; [exact Hsteps|]. now apply step_o_set_stop.
      + now apply step_o_notify.
    - repeat (apply Forall_app; split); auto; repeat constructor; auto.
    - reflexivity. }
  destruct (owner s) eqn:E.
  - contradiction.
  - destruct (worker_releases s Hi E) as (l1 & s1 & Hs1 & Hall1 & Ho1 & Hm1).
    eapply (FromLocked _ (l1 ++ [LThread Owner])%list).
    + eapply steps_snoc; [exact Hs1|]. now apply step_o_lock.
    + apply Forall_app. split; [now apply Forall_worker_widen|].
      constructor; [now right | constructor].
    + reflexivity.
  - apply (FromLocked s []); [apply steps_refl | constructor | exact E].
  - eapply (Finish _ [LThread Owner]).
    + apply steps_one. now apply step_o_notify.
    + constructor; [now right | constructor].
    + reflexivity.
  - apply (Finish s []); [apply steps_refl | constructor | now rewrite E].
  - apply (Finish s []); [apply steps_refl | constructor | now rewrite E].
  - apply (Finish s []); [apply steps_refl | constructor | now rewrite E].
Qed.

End SchedulerMore.

(** *** Short runs *)

Lemma sink_is_append_only_witness :
  file (shared writing_state) = Contents "old" /\
  exists s' suffix,
    steps writing_state [LThread (Client 0)] s' /\
    file (shared s') = Contents ("old" ++ suffix).
Proof.
  split; [reflexivity|].
  assert (Hs : exists s', steps writing_state [LThread (Client 0)] s').
  { eexists. apply steps_one.
    apply (step_c_flush writing_state 0
             (FWrite 0 (timestamp epoch ++ newline)) epoch);
      [reflexivity | discriminate | reflexivity]. }
  destruct Hs as [s' Hs]. exists s'.
  destruct (sink_is_append_only writing_state s' _ "old" Hs eq_refl)
    as [suffix Hf].
  exists suffix. split; [exact Hs | exact Hf].
Defined.

Lemma registry_never_shrinks_witness :
  exists s',
    steps pushing_state [LThread (Client 0)] s' /\
    (List.length (metrics_ (shared pushing_state)) <=
     List.length (metrics_ (shared s')))%nat.
Proof.
  assert (Hs : exists s', steps pushing_state [LThread (Client 0)] s').
  { eexists. apply steps_one.
    apply (step_c_push pushing_state 0 (Counter (CounterMetric.make "C"))).
    reflexivity. }
  destruct Hs as [s' Hs]. exists s'. split; [exact Hs|].
  exact (proj1 (registry_never_shrinks pushing_state s' _ Hs)).
Defined.

Lemma shutdown_is_final_witness :
  exists s',
    steps shutdown_state [LTick] s' /\
    stop_flag_ (shared shutdown_state) = true /\
    stop_flag_ (shared s') = true.
Proof.
  assert (Hs : exists s', steps shutdown_state [LTick] s').
  { eexists. apply steps_one. apply step_tick. }
  destruct Hs as [s' Hs]. exists s'. split; [exact Hs|].
  split; [reflexivity|].
  exact (proj1 (shutdown_is_final shutdown_state s' _ Hs) eq_refl).
Defined.

Lemma lock_holder_can_step_witness :
  reachable mid_flush_state /\
  mutex_ mid_flush_state = Some (Client 0) /\
  exists s', step mid_flush_state (LThread (Client 0)) s'.
Proof.
  split; [exact mid_flush_state_reachable|]. split; [reflexivity|].
  exact (lock_holder_can_step mid_flush_state (Client 0)
           mid_flush_state_reachable eq_refl).
Defined.

Lemma cycle_indices_stay_in_range_witness :
  reachable mid_flush_state /\
  flush_pc_of mid_flush_state (Client 0) =
    Some (FRender 1 1 (timestamp epoch ++ field ("C", "0"))) /\
  indices_in_range (FRender 1 1 (timestamp epoch ++ field ("C", "0")))
    (List.length (metrics_ (shared mid_flush_state))).
Proof.
  split; [exact mid_flush_state_reachable|]. split; [reflexivity|].
  exact (cycle_indices_stay_in_range mid_flush_state (Client 0) _
           mid_flush_state_reachable eq_refl).
Defined.

Lemma flush_now_runs_one_cycle_witness :
  clients calling_flush_now_state 0 = CFlushNow /\
  mutex_ calling_flush_now_state = None /\
  since_epoch_ms epoch = clock calling_flush_now_state /\
  exists ls s',
    steps calling_flush_now_state ls s' /\
    file (shared s') = Contents ("old" ++ timestamp epoch ++ newline).
Proof.
  split; [reflexivity|]. split; [reflexivity|]. split; [reflexivity|].
  destruct (flush_now_runs_one_cycle epoch 0 calling_flush_now_state
              eq_refl eq_refl eq_refl)
    as (ls & s' & Hs & _ & _ & _ & Hshared & _).
  exists ls, s'. split; [exact Hs|]. rewrite Hshared. reflexivity.
Defined.

Lemma destroying_state_reachable : reachable destroying_state.
Proof.
  unfold destroying_state. cbv zeta.
  eapply reachable_step;
    [|apply step_o_destroy; [reflexivity | intros k; reflexivity]].
  eapply reachable_step; [|apply step_w_call_flush; reflexivity].
  eapply reachable_step; [|apply step_w_relock; reflexivity].
  eapply reachable_step; [|eapply step_w_spurious; reflexivity].
  eapply reachable_step; [|apply step_w_wait; reflexivity].
  eapply reachable_step; [|apply step_w_lock; reflexivity].
  apply reachable_construct.
Qed.

Lemma destruction_can_complete_witness :
  reachable destroying_state /\
  owner destroying_state <> OAlive /\
  exists ls s',
    steps destroying_state ls s' /\
    worker s' = WExit /\ owner s' = ODestroyed.
Proof.
  assert (Ho : owner destroying_state <> OAlive) by discriminate.
  split; [exact destroying_state_reachable|]. split; [exact Ho|].
  destruct (destruction_can_complete destroying_state
              destroying_state_reachable Ho)
    as (ls & s' & Hs & _ & Hw & Hd).
  exists ls, s'. auto.
Defined.
